(** * vyper code generation: module assembly and internal calls

    A shallow embedding of [vyper/codegen/module.py] and
    [vyper/codegen/self_call.py], and the properties of the function
    orderer, the runtime and deploy assemblers, the label allocator and the
    internal call lowerer.

    Python values are modelled as follows.
    - An exception is a value of [exception]; a call that may raise returns
      a [result].
    - A dict that is only looked up by key is a [gmap]; a dict whose order of
      insertion is read back ([.values()]) is an association list.
    - The interpreter's bound on nested calls is the [depth] argument of the
      one recursive function, [_topsort_helper].
    - A function definition tested by [if] is read through its truth value,
      which is that of its body: a node whose body is empty fails the test,
      as [None] does.
    - A name that a function reads without binding it is resolved in the
      module's scope when the line runs; the scope is an explicit argument
      ([module_scope], [self_call_scope]) whose entries are [None] for the
      names the module does not bind. *)

From stdpp Require Import base option list gmap strings pretty.
From Stdlib Require Import ZArith Lia.

Open Scope Z_scope.
Open Scope nat_scope.

Set Warnings "-register-all".

(** ** Exceptions and results *)

Inductive exception : Type :=
| RecursionError
| KeyError (key : string)
| NameError (name : string)
| CompilerPanic (msg : string)
| StateAccessViolation (msg : string)
| StructureException (msg : string).

Inductive result (A : Type) : Type :=
| Ok (a : A)
| Raise (e : exception).
Arguments Ok {A} a.
Arguments Raise {A} e.

#[global] Instance result_ret : MRet result := λ A a, Ok a.
#[global] Instance result_bind : MBind result := λ A B f m,
  match m with Ok a => f a | Raise e => Raise e end.

(** [d[k]] on a dict used as a map. *)
Definition getitem {A} (d : gmap string A) (k : string) : result A :=
  match d !! k with
  | Some v => Ok v
  | None => Raise (KeyError k)
  end.

(** [[g x for x in l]] where [g] may raise: left to right, the first
    exception ends the comprehension. *)
Fixpoint comprehension {A B} (g : A → result B) (l : list A) : result (list B) :=
  match l with
  | [] => Ok []
  | x :: l' => y ← g x; ys ← comprehension g l'; mret (y :: ys)
  end.

(** ** Function definitions

    [ContractFunctionT] holds what the two files read through
    [f._metadata["type"]], [f._metadata["signature"]] and [func_t].
    [called_functions] lists the [name] of each called function, the only
    attribute read from its entries. *)

Record ContractFunctionT : Type := {
  ft_name : string;
  is_internal : bool;
  is_fallback : bool;
  is_payable : bool;
  is_constructor : bool;
  is_modifying : bool;
  min_arg_count : nat;
  max_arg_count : nat;
  called_functions : list string;
  mem_used : Z                      (* frame_info.mem_used *)
}.

(** A [FunctionDef] node of the syntax tree. Two nodes are the same dict key
    when they agree on [node_id] and on their fields. [signature] is the
    entry that [generate_ir_for_module] assigns before anything reads it.
    [body] holds the statements of the function, as source text; the
    docstring of a function is kept apart from its body, so the body of a
    function that has nothing but a docstring is empty. *)
Record FunctionDef : Type := {
  name : string;
  node_id : nat;
  body : list string;
  type : ContractFunctionT;         (* _metadata["type"] *)
  signature : ContractFunctionT     (* _metadata["signature"] *)
}.

(** The truth value of a node, as [if f:] reads it. The base class of
    [FunctionDef] (vyper/ast/nodes.py, not among the sources) defines
    [__len__] as the number of statements of the body and no [__bool__]: a
    function definition is true when its body holds a statement. *)
Definition FunctionDef_bool (f : FunctionDef) : bool :=
  bool_decide (length (body f) ≠ 0).

#[global] Instance ContractFunctionT_eq_dec : EqDecision ContractFunctionT.
Proof. solve_decision. Defined.
#[global] Instance FunctionDef_eq_dec : EqDecision FunctionDef.
Proof. solve_decision. Defined.

(** ** The function orderer (module.py, lines 15-34) *)

(** [{f.name: f for f in functions}]: a later function replaces an earlier
    one of the same name. *)
Definition name_dict (functions : list FunctionDef) : gmap string FunctionDef :=
  foldl (λ d f, <[name f := f]> d) ∅ functions.

(** [list(dict.fromkeys(l))]: every element once, at the place of its first
    occurrence. *)
Definition fromkeys_step {A} `{EqDecision A} (keys : list A) (x : A) : list A :=
  if decide (x ∈ keys) then keys else keys ++ [x].

Definition dict_fromkeys {A} `{EqDecision A} (l : list A) : list A :=
  foldl fromkeys_step [] l.

(** The body of the [for] loop of [_topsort_helper], with the recursive call
    as [self]. *)
Definition topsort_loop
    (self : list FunctionDef → result (list FunctionDef))
    (lookup : gmap string FunctionDef) :
    list FunctionDef → list FunctionDef → result (list FunctionDef) :=
  fix loop (functions ret : list FunctionDef) :=
    match functions with
    | [] => Ok ret
    | f :: rest =>
        callees ← comprehension (getitem lookup) (called_functions (type f));
        sub ← self callees;
        loop rest (ret ++ sub ++ [f])
    end.

(** [depth] is the number of nested calls the interpreter still allows; a
    call made when none is left raises [RecursionError]. *)
Fixpoint _topsort_helper (depth : nat) (functions : list FunctionDef)
    (lookup : gmap string FunctionDef) : result (list FunctionDef) :=
  match depth with
  | O => Raise RecursionError
  | S depth' =>
      topsort_loop (λ callees, _topsort_helper depth' callees lookup)
        lookup functions []
  end.

Definition _topsort (depth : nat) (functions : list FunctionDef) :
    result (list FunctionDef) :=
  let lookup := name_dict functions in
  keys ← _topsort_helper depth functions lookup;
  mret (dict_fromkeys keys).

(** The call graph of a function list: [f] calls [c] when [c] is a function
    of the list whose name is among the called functions of [f]. *)
Definition calls (functions : list FunctionDef) (f c : FunctionDef) : Prop :=
  c ∈ functions ∧ name c ∈ called_functions (type f).

(** [c] is reachable from [f] in one or more calls. *)
Definition reaches (functions : list FunctionDef) : relation FunctionDef :=
  tc (calls functions).

(** No function of the list reaches itself. *)
Definition acyclic (functions : list FunctionDef) : Prop :=
  ∀ f, f ∈ functions → ¬ reaches functions f f.

(** Every called name is the name of a function of the list. *)
Definition resolved (functions : list FunctionDef) : Prop :=
  ∀ f n, f ∈ functions → n ∈ called_functions (type f) →
    ∃ c, c ∈ functions ∧ name c = n.

(** [c] stands strictly before [f] in [l]. *)
Definition before {A} (l : list A) (c f : A) : Prop :=
  ∃ i j, l !! i = Some c ∧ l !! j = Some f ∧ i < j.

(** [R f c]: [f] requires [c]. A list is closed under [R] when every
    requirement of an element stands strictly before it. *)
Definition closed {A} (R : relation A) (l : list A) : Prop :=
  ∀ i f c, l !! i = Some f → R f c → ∃ j, j < i ∧ l !! j = Some c.

(** The call relation that [_topsort_helper] follows: a called name and the
    function the lookup gives for it. *)
Definition requires (lookup : gmap string FunctionDef) (f c : FunctionDef) : Prop :=
  ∃ n, n ∈ called_functions (type f) ∧ lookup !! n = Some c.

(** What a successful expansion of [fs] returns. *)
Definition expansion (lookup : gmap string FunctionDef) (fs out : list FunctionDef) : Prop :=
  closed (requires lookup) out
  ∧ (∀ f, f ∈ fs → f ∈ out)
  ∧ (∀ x, x ∈ out → x ∈ fs ∨ ∃ n, lookup !! n = Some x).

(** What an expansion of [fs] holds: the functions asked for and the
    functions they reach. *)
Definition reached (lookup : gmap string FunctionDef) (fs : list FunctionDef)
    (x : FunctionDef) : Prop :=
  x ∈ fs ∨ ∃ f, f ∈ fs ∧ tc (requires lookup) f x.

(** Test data: [helper] is called by [pay] and [send] (spec, section 8).
    Every function has the one statement [pass]. *)
Definition mk_type (n : string) (internal fallback payable ctor : bool)
    (callees : list string) : ContractFunctionT :=
  {| ft_name := n; is_internal := internal; is_fallback := fallback;
     is_payable := payable; is_constructor := ctor; is_modifying := true;
     min_arg_count := 0; max_arg_count := 0;
     called_functions := callees; mem_used := 0%Z |}.

Definition mk_def (n : string) (id : nat) (internal fallback payable ctor : bool)
    (callees : list string) : FunctionDef :=
  let t := mk_type n internal fallback payable ctor callees in
  {| name := n; node_id := id; body := ["pass"]; type := t; signature := t |}.

(** The same function with nothing but a docstring. *)
Definition docstring_only (f : FunctionDef) : FunctionDef :=
  {| name := name f; node_id := node_id f; body := [];
     type := type f; signature := signature f |}.

Definition fn_pay : FunctionDef := mk_def "pay" 1 false false true false ["helper"].
Definition fn_send : FunctionDef := mk_def "send" 2 false false false false ["helper"].
Definition fn_helper : FunctionDef := mk_def "helper" 3 true false false false [].
Definition fn_loop : FunctionDef := mk_def "loop" 4 true false false false ["loop"].

(** A function that calls [helper] and a name that no function bears. *)
Definition fn_orphan : FunctionDef :=
  mk_def "orphan" 9 true false false false ["helper"; "missing"].

(** ** IR nodes

    Modelled from the spec: [IRnode] and [IRnode.from_list]
    (vyper/codegen/ir_node.py is not among the sources). An IR node is a leaf
    (an integer, or a string: label, identifier or operator name) or an
    operator applied to an ordered sequence of children, decorated with
    metadata, of which the boolean [is_self_call] is the flag read by the
    hazard check. A Python list literal in IR position, [["op", a, b]], is
    the node [from_list] makes of it: [op "op" [a; b]]. *)

Inductive Typ : Type :=
| NamedT (s : string)
| TupleT (members : list (option Typ)).

Inductive AddrSpace : Type := MEMORY.

Inductive IRvalue : Type :=
| IRint (n : Z)
| IRstr (s : string).

Record IRmeta : Type := {
  typ : option Typ;
  location : option AddrSpace;
  annotation : option string;
  error_msg : option string;
  add_gas_estimate : Z;
  is_self_call : bool
}.

Inductive IRnode : Type :=
| IR (value : IRvalue) (args : list IRnode) (meta : IRmeta).

Definition ir_value (n : IRnode) : IRvalue := let 'IR v _ _ := n in v.
Definition ir_args (n : IRnode) : list IRnode := let 'IR _ a _ := n in a.
Definition ir_meta (n : IRnode) : IRmeta := let 'IR _ _ m := n in m.

Definition no_meta : IRmeta :=
  {| typ := None; location := None; annotation := None; error_msg := None;
     add_gas_estimate := 0%Z; is_self_call := false |}.

Definition op (s : string) (args : list IRnode) : IRnode := IR (IRstr s) args no_meta.
Definition sym (s : string) : IRnode := IR (IRstr s) [] no_meta.
Definition int (n : Z) : IRnode := IR (IRint n) [] no_meta.

(** Modelled from the spec: the property [contains_self_call] of an IR node
    (ir_node.py), "any nested self-call anywhere within the composite's
    expression tree": the node is flagged or one of its children contains a
    self-call. *)
Fixpoint contains_self_call (n : IRnode) : bool :=
  let 'IR _ args m := n in
  is_self_call m ||
  (fix any (l : list IRnode) : bool :=
     match l with
     | [] => false
     | x :: l' => contains_self_call x || any l'
     end) args.

(** [s] is [t] or a node somewhere below [t]. *)
Inductive subtree (s : IRnode) : IRnode → Prop :=
| subtree_refl : subtree s s
| subtree_arg v args m a : a ∈ args → subtree s a → subtree s (IR v args m).

(** ** Ordered dicts: [d[k] = v], [d.values()], [d[k]] *)

Fixpoint setitem {A} (d : list (string * A)) (k : string) (v : A) : list (string * A) :=
  match d with
  | [] => [(k, v)]
  | (k', v') :: d' =>
      if decide (k' = k) then (k, v) :: d' else (k', v') :: setitem d' k v
  end.

Definition values {A} (d : list (string * A)) : list A := d.*2.

Fixpoint getitem_ordered {A} (d : list (string * A)) (k : string) : result A :=
  match d with
  | [] => Raise (KeyError k)
  | (k', v) :: d' => if decide (k' = k) then Ok v else getitem_ordered d' k
  end.

(** A name read in module scope: its value, or [NameError]. *)
Definition read_name {A} (n : string) (binding : option A) : result A :=
  match binding with
  | Some v => Ok v
  | None => Raise (NameError n)
  end.

(** ** The runtime and deploy assemblers (module.py, lines 37-169) *)

Record GlobalContext : Type := {
  functions : list FunctionDef;
  immutable_section_bytes : Z
}.

(** The names [generate_ir_for_module] reads without binding them. *)
Record ModuleScope : Type := {
  scope_all_sigs : option (gmap string (gmap string ContractFunctionT));
  scope_local_sigs : option (gmap string ContractFunctionT)
}.

(** module.py binds neither [all_sigs] nor [local_sigs] at module level. *)
Definition module_scope : ModuleScope :=
  {| scope_all_sigs := None; scope_local_sigs := None |}.

(** [["assert", ["iszero", "callvalue"]]] *)
Definition assert_callvalue_zero : IRnode :=
  op "assert" [op "iszero" [sym "callvalue"]].

Definition is_callvalue_assert (n : IRnode) : bool :=
  match n with
  | IR (IRstr "assert") [IR (IRstr "iszero") [IR (IRstr "callvalue") [] _] _] _ => true
  | _ => false
  end.

(** Collaborators outside the two files: the per-function code generator
    (its last argument is the flag that makes a function skip its own check
    of the call value), [shr] of codegen/core.py and
    [ContractFunctionT.from_FunctionDef]. *)
Class Codegen : Type := {
  generate_ir_for_function :
    FunctionDef → gmap string (gmap string ContractFunctionT) → GlobalContext → bool → IRnode;
  shr : Z → IRnode → IRnode;
  from_FunctionDef : FunctionDef → ContractFunctionT
}.

Section Assemblers.

Context {codegen : Codegen}.

(** Lines 42-50: the categories of the runtime functions. *)
Definition internal_functions (runtime_functions : list FunctionDef) : list FunctionDef :=
  filter (λ f, is_internal (signature f)) runtime_functions.

Definition external_functions (runtime_functions : list FunctionDef) : list FunctionDef :=
  filter (λ f, ¬ is_internal (signature f)) runtime_functions.

Definition default_function (runtime_functions : list FunctionDef) : option FunctionDef :=
  head (filter (λ f, is_fallback (signature f)) (external_functions runtime_functions)).

Definition regular_functions (runtime_functions : list FunctionDef) : list FunctionDef :=
  filter (λ f, ¬ is_fallback (signature f)) (external_functions runtime_functions).

Definition payables (runtime_functions : list FunctionDef) : list FunctionDef :=
  filter (λ f, is_payable (signature f)) (regular_functions runtime_functions).

Definition nonpayables (runtime_functions : list FunctionDef) : list FunctionDef :=
  filter (λ f, ¬ is_payable (signature f)) (regular_functions runtime_functions).

(** Lines 54-58. *)
Definition internal_functions_map (runtime_functions : list FunctionDef)
    (all_sigs : gmap string (gmap string ContractFunctionT)) (global_ctx : GlobalContext) :
    list (string * IRnode) :=
  foldl (λ d func_ast,
           setitem d (name func_ast)
             (generate_ir_for_function func_ast all_sigs global_ctx false))
    [] (internal_functions runtime_functions).

(** Lines 70-75. *)
Definition default_is_nonpayable (runtime_functions : list FunctionDef) : bool :=
  match default_function runtime_functions with
  | None => true
  | Some d => negb (is_payable (signature d))
  end.

Definition batch_payable_check (runtime_functions : list FunctionDef) : bool :=
  bool_decide (0 < length (nonpayables runtime_functions))
  && default_is_nonpayable runtime_functions.

Definition skip_nonpayable_check (runtime_functions : list FunctionDef) : bool :=
  batch_payable_check runtime_functions.

(** Lines 95-97: the fallback of a contract that provides none. *)
Definition default_revert : IRnode :=
  IR (IRstr "revert") [int 0; int 0]
    {| typ := None; location := None; annotation := Some "Default function";
       error_msg := Some "fallback function"; add_gas_estimate := 0%Z;
       is_self_call := false |}.

(** Lines 77-88: the children of the ["seq"] that is the dispatch body, in
    the order in which the loops append them. *)
Definition selector_section (runtime_functions : list FunctionDef)
    (all_sigs : gmap string (gmap string ContractFunctionT)) (global_ctx : GlobalContext) :
    list IRnode :=
  let section := [] in
  let section :=
    foldl (λ section func_ast,
             section ++ [generate_ir_for_function func_ast all_sigs global_ctx false])
      section (payables runtime_functions) in
  let section :=
    if batch_payable_check runtime_functions
    then section ++ [assert_callvalue_zero]
    else section in
  foldl (λ section func_ast,
           section ++ [generate_ir_for_function func_ast all_sigs global_ctx
                         (skip_nonpayable_check runtime_functions)])
    section (nonpayables runtime_functions).

(** Lines 90-97. The test of line 90, [if default_function:], is on the
    truth value: [None] fails it, and so does a function definition whose
    body is empty. *)
Definition fallback_ir (runtime_functions : list FunctionDef)
    (all_sigs : gmap string (gmap string ContractFunctionT)) (global_ctx : GlobalContext) :
    IRnode :=
  match default_function runtime_functions with
  | Some d =>
      if FunctionDef_bool d then
        generate_ir_for_function d all_sigs global_ctx
          (skip_nonpayable_check runtime_functions)
      else default_revert
  | None => default_revert
  end.

(** The runtime tree around a dispatch body (lines 103-113). *)
Definition dispatch_tree (selector : list IRnode) (fallback : IRnode)
    (internal : list IRnode) : IRnode :=
  let close_selector_section := op "goto" [sym "fallback"] in
  op "seq"
    ([ op "with" [sym "_calldata_method_id";
                  shr 224 (op "calldataload" [int 0]);
                  op "seq" selector];
       close_selector_section;
       op "label" [sym "fallback"; op "var_list" []; fallback] ]
     ++ internal).

Definition _runtime_ir (runtime_functions : list FunctionDef)
    (all_sigs : gmap string (gmap string ContractFunctionT)) (global_ctx : GlobalContext) :
    IRnode * list (string * IRnode) :=
  let internal_functions_map :=
    internal_functions_map runtime_functions all_sigs global_ctx in
  if decide (length (external_functions runtime_functions) = 0) then
    (op "seq" (values internal_functions_map), internal_functions_map)
  else
    (dispatch_tree
       (selector_section runtime_functions all_sigs global_ctx)
       (fallback_ir runtime_functions all_sigs global_ctx)
       (values internal_functions_map),
     internal_functions_map).

(** Line 138: [f._metadata["signature"] = func_t]. *)
Definition set_signature (f : FunctionDef) : FunctionDef :=
  {| name := name f; node_id := node_id f; body := body f; type := type f;
     signature := from_FunctionDef f |}.

(** Lines 161-162: the loop that appends the bodies of the constructor's
    called functions. *)
Fixpoint append_called (internal_functions : list (string * IRnode))
    (called : list string) (deploy_code : list IRnode) : result (list IRnode) :=
  match called with
  | [] => Ok deploy_code
  | f_name :: rest =>
      body ← getitem_ordered internal_functions f_name;
      append_called internal_functions rest (deploy_code ++ [body])
  end.

(** Lines 120-169. The function definitions are shared objects: the
    assignment of line 138 is seen through [global_ctx.functions] too. The
    assertion of line 140 holds, [all_funcs] being empty there. The test of
    line 150, [if init_function:], is on the truth value: a constructor whose
    body is empty takes the branch of a module without constructor. *)
Definition generate_ir_for_module (scope : ModuleScope) (depth : nat)
    (global_ctx : GlobalContext) :
    result (IRnode * IRnode * gmap string ContractFunctionT) :=
  function_defs ← _topsort depth (functions global_ctx);
  let all_funcs : gmap string (gmap string ContractFunctionT) := ∅ in
  let local_funcs : gmap string ContractFunctionT :=
    foldl (λ d f, let func_t := from_FunctionDef f in <[ft_name func_t := func_t]> d)
      ∅ function_defs in
  let function_defs := set_signature <$> function_defs in
  let global_ctx :=
    {| functions := set_signature <$> functions global_ctx;
       immutable_section_bytes := immutable_section_bytes global_ctx |} in
  let all_funcs := <["self" := local_funcs]> all_funcs in
  let runtime_functions :=
    filter (λ f, ¬ is_constructor (signature f)) function_defs in
  let init_function :=
    head (filter (λ f, is_constructor (signature f)) function_defs) in
  let '(runtime, internal_functions) :=
    _runtime_ir runtime_functions all_funcs global_ctx in
  let deploy_code : list IRnode := [] in
  let immutables_len := immutable_section_bytes global_ctx in
  let without_constructor : result (list IRnode) :=
    if decide (immutables_len ≠ 0%Z) then Raise (CompilerPanic "unreachable")
    else Ok (deploy_code ++ [op "deploy" [int 0; runtime; int 0]]) in
  deploy_code ←
    match init_function with
    | Some init_function =>
        if FunctionDef_bool init_function then
          all_sigs ← read_name "all_sigs" (scope_all_sigs scope);
          let init_func_ir :=
            generate_ir_for_function init_function all_sigs global_ctx false in
          let deploy_code := deploy_code ++ [init_func_ir] in
          let init_mem_used := mem_used (signature init_function) in
          let deploy_code :=
            deploy_code ++ [op "deploy" [int init_mem_used; runtime; int immutables_len]] in
          append_called internal_functions
            (called_functions (type init_function)) deploy_code
        else without_constructor
    | None => without_constructor
    end;
  local_sigs ← read_name "local_sigs" (scope_local_sigs scope);
  Ok (op "seq" deploy_code, runtime, local_sigs).

End Assemblers.

(** The categories of the runtime functions in the spec's words: a regular
    function is external and not the fallback; the fallback is an external
    function with the role flag. *)
Definition regular (f : FunctionDef) : Prop :=
  is_internal (signature f) = false ∧ is_fallback (signature f) = false.

Definition has_nonpayable_regular (fs : list FunctionDef) : Prop :=
  ∃ f, f ∈ fs ∧ regular f ∧ is_payable (signature f) = false.

Definition is_fallback_of (fs : list FunctionDef) (d : FunctionDef) : Prop :=
  d ∈ fs ∧ is_internal (signature d) = false ∧ is_fallback (signature d) = true.

Definition fallback_absent_or_nonpayable (fs : list FunctionDef) : Prop :=
  ∀ d, is_fallback_of fs d → is_payable (signature d) = false.

(** The module invariant: at most one external function is the fallback. *)
Definition at_most_one_fallback (fs : list FunctionDef) : Prop :=
  ∀ d d', is_fallback_of fs d → is_fallback_of fs d' → d = d'.

(** The number of combined value checks among the children of a sequence. *)
Definition count_callvalue_asserts (l : list IRnode) : nat :=
  length (filter (λ n, is_callvalue_assert n) l).

(** Test data for the assemblers: a generator that records the function and
    the flag it was called with; the signature of a function is its type. *)
Definition test_codegen : Codegen :=
  {| generate_ir_for_function := λ f _ _ skip,
       op "function" [sym (name f); sym (if skip then "skip_value_check" else "check_value")];
     shr := λ n x, op "shr" [int n; x];
     from_FunctionDef := type |}.

Definition fn_fallback_payable : FunctionDef :=
  mk_def "__default__" 5 false true true false [].
Definition fn_fallback : FunctionDef :=
  mk_def "__default__" 10 false true false false [].
Definition fn_init : FunctionDef := mk_def "__init__" 6 false false false true ["a"].
Definition fn_a : FunctionDef := mk_def "a" 7 true false false false ["b"].
Definition fn_b : FunctionDef := mk_def "b" 8 true false false false [].

(** The IR [test_codegen] returns for the function named [n]. *)
Definition test_ir (n : string) (skip : bool) : IRnode :=
  op "function" [sym n; sym (if skip then "skip_value_check" else "check_value")].

(** The module of the spec's example: no constructor, no immutables. *)
Definition ctx_plain : GlobalContext :=
  {| functions := [fn_pay; fn_send; fn_helper]; immutable_section_bytes := 0 |}.

(** The same functions with 32 bytes of immutables. *)
Definition ctx_plain_immutables : GlobalContext :=
  {| functions := [fn_pay; fn_send; fn_helper]; immutable_section_bytes := 32 |}.

(** A constructor that calls [a], which calls [b]. *)
Definition ctx_init : GlobalContext :=
  {| functions := [fn_init; fn_a; fn_b]; immutable_section_bytes := 0 |}.

(** The same module with a constructor that has nothing but a docstring. *)
Definition ctx_init_docstring (immutables : Z) : GlobalContext :=
  {| functions := [docstring_only fn_init; fn_a; fn_b];
     immutable_section_bytes := immutables |}.

(** A module in which [orphan] calls a name that no function bears. *)
Definition ctx_orphan : GlobalContext :=
  {| functions := [fn_orphan; fn_helper]; immutable_section_bytes := 0 |}.

(** ** The label allocator (self_call.py, lines 7-14)

    [_label_counter] is a global of the module, shared by every compilation
    of the process: the function takes its value and returns the new one
    beside the label. *)
Definition _generate_label (name : string) (_label_counter : nat) : string * nat :=
  let _label_counter := _label_counter + 1 in
  ("label" +:+ pretty _label_counter, _label_counter).

(** The labels of a sequence of allocations, one per call site, from the
    counter [c]. *)
Fixpoint generate_labels (names : list string) (c : nat) : list string * nat :=
  match names with
  | [] => ([], c)
  | n :: rest =>
      let '(l, c) := _generate_label n c in
      let '(ls, c) := generate_labels rest c in
      (l :: ls, c)
  end.

(** [l[:k]] *)
Definition slice_to {A} (k : Z) (l : list A) : list A :=
  if decide (0 ≤ k)%Z then take (Z.to_nat k) l
  else take (length l - Z.to_nat (- k)) l.

(** [l[-k:]] for [0 < k]: the last [k] elements. *)
Definition last_n {A} (k : nat) (l : list A) : list A := drop (length l - k) l.

(** ** The internal call lowerer (self_call.py, lines 17-138) *)

Section SelfCall.

(** Expressions of the syntax tree and the codegen context are collaborators'
    types. *)
Context {ExprAst Context : Type}.

(** What the lowerer reads through [sig]. [sig_arg_typs] is
    [[arg.typ for arg in sig.args]]; [frame_start] is
    [sig.frame_info.frame_start]; [default_values] is in declaration order. *)
Record FunctionSignature : Type := {
  internal : bool;
  internal_function_label : string;
  return_type : option Typ;
  sig_arg_typs : list (option Typ);
  frame_start : Z;
  gas_estimate : Z;
  default_values : list (string * ExprAst)
}.

(** A call expression [self.func_attr(call_args...)]; [call_type] is
    [call_expr._metadata["type"]]. *)
Record Call : Type := {
  func_attr : string;
  call_args : list ExprAst;
  call_type : ContractFunctionT;
  node_source_code : string
}.

(** The names [_align_kwargs] reads without binding them: [args_ir], [sig]
    and the exception class [CompilerPanic]. *)
Record SelfCallScope : Type := {
  scope_args_ir : option (list IRnode);
  scope_sig : option FunctionSignature;
  scope_CompilerPanic : bool
}.

(** self_call.py binds none of them at module level. *)
Definition self_call_scope : SelfCallScope :=
  {| scope_args_ir := None; scope_sig := None; scope_CompilerPanic := false |}.

(** Lines 24-26. *)
Definition _check (scope : SelfCallScope) (cond : bool) (s : string) : result unit :=
  if cond then Ok ()
  else if scope_CompilerPanic scope then Raise (CompilerPanic s)
  else Raise (NameError "CompilerPanic").

(** Lines 17-40. *)
Definition _align_kwargs (scope : SelfCallScope) (func_t : ContractFunctionT)
    (pos_args_ir : list IRnode) (call_expr : Call) :
    result (FunctionSignature * list ExprAst) :=
  _ ← _check scope (is_internal func_t) "Unreachable";
  _ ← _check scope
        (bool_decide (min_arg_count func_t ≤ length pos_args_ir)
         && bool_decide (length pos_args_ir ≤ max_arg_count func_t)) "Unreachable";
  args_ir ← read_name "args_ir" (scope_args_ir scope);
  let num_provided_kwargs := (Z.of_nat (length args_ir) - Z.of_nat (min_arg_count func_t))%Z in
  let num_kwargs := (Z.of_nat (max_arg_count func_t) - Z.of_nat (min_arg_count func_t))%Z in
  let kwargs_needed := (num_kwargs - num_provided_kwargs)%Z in
  sig ← read_name "sig" (scope_sig scope);
  let kw_vals := slice_to kwargs_needed (default_values sig).*2 in
  Ok (sig, kw_vals).

(** The state the lowerer works on: the module global [_label_counter] and
    the context object, which allocating a variable changes. *)
Record State : Type := {
  label_counter : nat;
  context : Context
}.

(** Computations that change the state and may raise. *)
Definition M (A : Type) : Type := State → result (A * State).

#[global] Instance M_ret : MRet M := λ A a st, Ok (a, st).
#[global] Instance M_bind : MBind M := λ A B f m st,
  match m st with
  | Ok (a, st') => f a st'
  | Raise e => Raise e
  end.

Definition raise {A} (e : exception) : M A := λ _, Raise e.
Definition lift {A} (r : result A) : M A := λ st,
  match r with Ok a => Ok (a, st) | Raise e => Raise e end.
Definition get_context : M Context := λ st, Ok (context st, st).

(** Collaborators outside the file. [Expr e] is [Expr(e, context).ir_node]:
    it may lower nested calls, so it works on the state.
    [Context_align_kwargs] is the method [context._align_kwargs];
    [is_constant], [pp_constancy] and [new_internal_variable] are the other
    methods of the context; [make_setter], [eval_once_check] and [_freshname]
    are of codegen/core.py, [push_label_to_stack] of codegen/ir_node.py. *)
Class Lowering : Type := {
  Expr : ExprAst → M IRnode;
  Context_align_kwargs :
    Context → string → list IRnode → Call → result (FunctionSignature * list ExprAst);
  is_constant : Context → bool;
  pp_constancy : Context → string;
  new_internal_variable : Context → Typ → Z * Context;
  make_setter : IRnode → IRnode → IRnode;
  eval_once_check : string → IRnode;
  _freshname : string → string;
  push_label_to_stack : string → IRnode
}.

Context {lowering : Lowering}.

(** [[Expr(x, context).ir_node for x in es]] *)
Fixpoint eval_exprs (es : list ExprAst) : M (list IRnode) :=
  match es with
  | [] => mret []
  | x :: rest => v ← Expr x; vs ← eval_exprs rest; mret (v :: vs)
  end.

(** The expressions [es] are evaluated one after the other from the state
    [st]: [vs] holds the value and [sts] the state that each evaluation
    leaves, and each evaluation starts from the state the one before left. *)
Definition evaluated_in_order (es : list ExprAst) (st : State)
    (vs : list IRnode) (sts : list State) : Prop :=
  length vs = length es ∧ length sts = length es
  ∧ ∀ i e, es !! i = Some e →
      ∃ s v s', (st :: sts) !! i = Some s ∧ sts !! i = Some s' ∧ vs !! i = Some v
                ∧ Expr e s = Ok (v, s').

Definition new_variable (t : Typ) : M Z := λ st,
  let '(pos, ctx) := new_internal_variable (context st) t in
  Ok (pos, {| label_counter := label_counter st; context := ctx |}).

Definition generate_label (name : string) : M string := λ st,
  let '(l, c) := _generate_label name (label_counter st) in
  Ok (l, {| label_counter := c; context := context st |}).

(** Lines 59-63: the signature, the positional and the defaulted argument
    values. *)
Definition call_arguments (call_expr : Call) :
    M (FunctionSignature * list IRnode * list IRnode) :=
  let method_name := func_attr call_expr in
  pos_args_ir ← eval_exprs (call_args call_expr);
  ctx ← get_context;
  '(sig, kw_vals) ← lift (Context_align_kwargs ctx method_name pos_args_ir call_expr);
  kw_args_ir ← eval_exprs kw_vals;
  mret (sig, pos_args_ir, kw_args_ir).

(** Lines 67-68. *)
Definition args_as_tuple (args_ir : list IRnode) : IRnode :=
  let args_tuple_t := TupleT ((λ x, typ (ir_meta x)) <$> args_ir) in
  IR (IRstr "multi") args_ir
    {| typ := Some args_tuple_t; location := None; annotation := None;
       error_msg := None; add_gas_estimate := 0%Z; is_self_call := false |}.

(** Lines 93-94. *)
Definition dst_tuple_t (sig : FunctionSignature) : Typ := TupleT (sig_arg_typs sig).

Definition memory_at (pos : Z) (t : Typ) : IRnode :=
  IR (IRint pos) []
    {| typ := Some t; location := Some MEMORY; annotation := None;
       error_msg := None; add_gas_estimate := 0%Z; is_self_call := false |}.

Definition args_dst (sig : FunctionSignature) : IRnode :=
  memory_at (frame_start sig) (dst_tuple_t sig).

(** Lines 100-114. *)
Definition copy_args (sig : FunctionSignature) (args_as_tuple : IRnode) : M IRnode :=
  if contains_self_call args_as_tuple then
    pos ← new_variable (dst_tuple_t sig);
    let tmp_args_buf := memory_at pos (dst_tuple_t sig) in
    mret (op "seq" [make_setter tmp_args_buf args_as_tuple;
                    make_setter (args_dst sig) tmp_args_buf])
  else
    mret (make_setter (args_dst sig) args_as_tuple).

(** Lines 85-90. *)
Definition return_buffer (sig : FunctionSignature) (return_label : string) :
    M (option IRnode) :=
  match return_type sig with
  | Some t =>
      pos ← new_variable t;
      mret (Some (IR (IRint pos) []
                    {| typ := None; location := None;
                       annotation := Some (return_label +:+ "_return_buf");
                       error_msg := None; add_gas_estimate := 0%Z;
                       is_self_call := false |}))
  | None => mret None
  end.

(** The context after the allocation of the return buffer. *)
Definition after_return_buffer (sig : FunctionSignature) (ctx : Context) : Context :=
  match return_type sig with
  | Some t => (new_internal_variable ctx t).2
  | None => ctx
  end.

(** Lines 116-138. *)
Definition call_sequence (call_expr : Call) (sig : FunctionSignature)
    (return_label : string) (return_buffer : option IRnode) (copy_args : IRnode) : IRnode :=
  let goto_op :=
    op "goto" ([sym (internal_function_label sig)]
               ++ match return_buffer with Some b => [b] | None => [] end
               ++ [push_label_to_stack return_label]) in
  let call_sequence :=
    [eval_once_check (_freshname (node_source_code call_expr))]
    ++ [copy_args; goto_op;
        op "label" [sym return_label; op "var_list" []; sym "pass"]]
    ++ match return_buffer with Some b => [b] | None => [] end in
  IR (IRstr "seq") call_sequence
    {| typ := return_type sig; location := Some MEMORY;
       annotation := Some (node_source_code call_expr); error_msg := None;
       add_gas_estimate := gas_estimate sig;
       is_self_call := true |}.

(** Lines 42-138. The three [print] calls of lines 56-58 write to the
    standard output and are left out. *)
Definition ir_for_self_call (call_expr : Call) : M IRnode :=
  let method_name := func_attr call_expr in
  let func_t := call_type call_expr in
  '(sig, pos_args_ir, kw_args_ir) ← call_arguments call_expr;
  let args_ir := pos_args_ir ++ kw_args_ir in
  let args_as_tuple := args_as_tuple args_ir in
  ctx ← get_context;
  if is_constant ctx && is_modifying func_t then
    raise (StateAccessViolation
             ("May not call state modifying function '" +:+ method_name
              +:+ "' within " +:+ pp_constancy ctx +:+ "."))
  else if negb (internal sig) then
    raise (StructureException "Cannot call external functions via 'self'")
  else
    return_label ← generate_label (internal_function_label sig +:+ "_call");
    return_buffer ← return_buffer sig return_label;
    copy_args ← copy_args sig args_as_tuple;
    mret (call_sequence call_expr sig return_label return_buffer copy_args).

End SelfCall.

(** Test data for the lowerer: literals and calls of internal functions as
    expressions, and a context that hands out memory in words of 32 bytes.
    [f(a, b=1, c=2)] returns a value, [g(x)] returns nothing. The context's
    [_align_kwargs] is the helper of self_call.py run with its three unbound
    names bound the way its body uses them: [args_ir] to the positional
    arguments, [sig] to the callee's signature. *)
Inductive test_expr : Type :=
| Lit (n : Z)
| SelfCallE (callee : string) (args : list test_expr).

Record test_context : Type := {
  next_free : Z;
  constant : bool
}.

Definition test_func_t (callee : string) : ContractFunctionT :=
  if decide (callee = "f") then
    {| ft_name := "f"; is_internal := true; is_fallback := false; is_payable := false;
       is_constructor := false; is_modifying := true;
       min_arg_count := 1; max_arg_count := 3;
       called_functions := []; mem_used := 96%Z |}
  else
    {| ft_name := callee; is_internal := true; is_fallback := false; is_payable := false;
       is_constructor := false; is_modifying := true;
       min_arg_count := 1; max_arg_count := 1;
       called_functions := []; mem_used := 32%Z |}.

Definition test_sig (callee : string) : @FunctionSignature test_expr :=
  if decide (callee = "f") then
    {| internal := true; internal_function_label := "internal_f";
       return_type := Some (NamedT "uint256");
       sig_arg_typs := [Some (NamedT "uint256"); Some (NamedT "uint256");
                        Some (NamedT "uint256")];
       frame_start := 320%Z; gas_estimate := 100%Z;
       default_values := [("b", Lit 1); ("c", Lit 2)] |}
  else
    {| internal := true; internal_function_label := "internal_" +:+ callee;
       return_type := None;
       sig_arg_typs := [Some (NamedT "uint256")];
       frame_start := 640%Z; gas_estimate := 50%Z;
       default_values := [] |}.

Definition test_call (callee : string) (args : list test_expr) : @Call test_expr :=
  {| func_attr := callee; call_args := args; call_type := test_func_t callee;
     node_source_code := "self." +:+ callee +:+ "(...)" |}.

Definition test_bound_scope (pos_args_ir : list IRnode) (callee : string) :
    @SelfCallScope test_expr :=
  {| scope_args_ir := Some pos_args_ir; scope_sig := Some (test_sig callee);
     scope_CompilerPanic := true |}.

Definition test_lowering_with (expr : test_expr → @M test_context IRnode) :
    @Lowering test_expr test_context :=
  {| Expr := expr;
     Context_align_kwargs := λ _ method_name pos_args_ir call_expr,
       _align_kwargs (test_bound_scope pos_args_ir method_name)
         (call_type call_expr) pos_args_ir call_expr;
     is_constant := constant;
     pp_constancy := λ _, "a constant function";
     new_internal_variable := λ ctx _,
       (next_free ctx, {| next_free := next_free ctx + 32; constant := constant ctx |});
     make_setter := λ dst src, op "set" [dst; src];
     eval_once_check := λ s, op "unique_symbol" [sym s];
     _freshname := λ s, s;
     push_label_to_stack := λ l, sym ("_sym_" +:+ l) |}.

(** Expressions nested at most [fuel] deep; a call is lowered by
    [ir_for_self_call]. *)
Fixpoint test_Expr (fuel : nat) (e : test_expr) : @M test_context IRnode :=
  match fuel with
  | O => raise RecursionError
  | S fuel' =>
      match e with
      | Lit n => mret (int n)
      | SelfCallE callee args =>
          ir_for_self_call (lowering := test_lowering_with (test_Expr fuel'))
            (test_call callee args)
      end
  end.

Definition test_lowering : @Lowering test_expr test_context :=
  test_lowering_with (test_Expr 8).

(** A generator that evaluates the literals below 2 and no other expression. *)
Definition test_Expr_small (e : test_expr) : @M test_context IRnode :=
  match e with
  | Lit n => if decide (n < 2)%Z then mret (int n) else raise (CompilerPanic "literal")
  | SelfCallE _ _ => raise RecursionError
  end.

Definition test_state : @State test_context :=
  {| label_counter := 0; context := {| next_free := 1024; constant := false |} |}.

(** The same state in a constant (view or pure) context. *)
Definition test_state_constant : @State test_context :=
  {| label_counter := 0; context := {| next_free := 1024; constant := true |} |}.

(** * Properties *)

Example topsort_example :
  _topsort 4 [fn_pay; fn_send; fn_helper] = Ok [fn_helper; fn_pay; fn_send].
Proof. vm_compute. reflexivity. Qed.

(** ** Results *)

Lemma bind_Ok {A B} (m : result A) (f : A → result B) (b : B) :
  m ≫= f = Ok b ↔ ∃ a, m = Ok a ∧ f a = Ok b.
Proof.
  destruct m as [a|e]; simpl; split.
  - intros H. by exists a.
  - by intros (a' & [= ->] & H).
  - done.
  - by intros (a' & [=] & _).
Qed.

Lemma comprehension_Ok {A B} (g : A → result B) (l : list A) (k : list B) :
  comprehension g l = Ok k ↔ Forall2 (λ x y, g x = Ok y) l k.
Proof.
  revert k. induction l as [|x l IH]; intros k; simpl.
  - split; [intros [= <-]; constructor | by inversion 1].
  - split.
    + intros (y & Hy & (ys & Hys & [= <-])%bind_Ok)%bind_Ok.
      constructor; [done | by apply IH].
    + inversion 1 as [|? y ? ys Hy Hys]; subst.
      apply bind_Ok. exists y. split; [done|].
      apply bind_Ok. exists ys. split; [by apply IH | done].
Qed.

(** ** The function orderer *)

Section Order.

Context {A : Type} `{EqDecision A}.

(** [R f c]: [f] requires [c]. *)
Variable R : relation A.

Lemma closed_nil : closed R [].
Proof. by intros i f c Hi. Qed.

Lemma closed_app l1 l2 : closed R l1 → closed R l2 → closed R (l1 ++ l2).
Proof.
  intros H1 H2 i f c Hi HR.
  destruct (decide (i < length l1)) as [Hlt|Hge].
  - rewrite lookup_app_l in Hi by done.
    destruct (H1 i f c Hi HR) as (j & Hj & Hc).
    exists j. split; [done|]. rewrite lookup_app_l by lia. done.
  - rewrite lookup_app_r in Hi by lia.
    destruct (H2 _ f c Hi HR) as (j & Hj & Hc).
    exists (length l1 + j). split; [lia|].
    rewrite lookup_app_r by lia.
    by replace (length l1 + j - length l1) with j by lia.
Qed.

Lemma closed_snoc l f :
  closed R l → (∀ c, R f c → c ∈ l) → closed R (l ++ [f]).
Proof.
  intros Hl Hf i g c Hi HR.
  destruct (decide (i < length l)) as [Hlt|Hge].
  - rewrite lookup_app_l in Hi by done.
    destruct (Hl i g c Hi HR) as (j & Hj & Hc).
    exists j. split; [done|]. by rewrite lookup_app_l by lia.
  - rewrite lookup_app_r in Hi by lia.
    apply list_lookup_singleton_Some in Hi as [Hi <-].
    destruct (proj1 (list_elem_of_lookup _ _) (Hf c HR)) as [j Hj].
    exists j. pose proof (lookup_lt_Some _ _ _ Hj).
    split; [lia|]. by rewrite lookup_app_l by lia.
Qed.

(** In a list closed under [R], the requirements of the element at
    [length pre] are elements of [pre]. *)
Lemma closed_prefix pre x rest c :
  closed R (pre ++ x :: rest) → R x c → c ∈ pre.
Proof.
  intros Hcl HR.
  destruct (Hcl (length pre) x c) as (j & Hj & Hc); [|done|].
  - by apply list_lookup_middle.
  - rewrite lookup_app_l in Hc by done. apply list_elem_of_lookup. eauto.
Qed.

Lemma fromkeys_fold rest : ∀ pre acc,
  closed R (pre ++ rest) → NoDup acc → closed R acc →
  (∀ x, x ∈ acc ↔ x ∈ pre) →
  NoDup (foldl fromkeys_step acc rest)
  ∧ closed R (foldl fromkeys_step acc rest)
  ∧ ∀ x, x ∈ foldl fromkeys_step acc rest ↔ x ∈ pre ++ rest.
Proof.
  induction rest as [|x rest IH]; intros pre acc Hcl Hnd Hacc Hel; simpl.
  - rewrite app_nil_r. done.
  - replace (pre ++ x :: rest) with ((pre ++ [x]) ++ rest) in *
      by (by rewrite <- app_assoc).
    apply IH; [done| | |]; unfold fromkeys_step; case_decide as Hx.
    + done.
    + apply NoDup_app. split_and!; [done| |apply NoDup_singleton].
      intros y Hy ->%list_elem_of_singleton. done.
    + done.
    + apply closed_snoc; [done|]. intros c HR. apply Hel.
      rewrite <- app_assoc in Hcl. by eapply closed_prefix.
    + intros y. rewrite elem_of_app, list_elem_of_singleton, <- Hel.
      split; [tauto | intros [?| ->]; done].
    + intros y. rewrite !elem_of_app, Hel. done.
Qed.

(** Removing duplicates keeps a closed list closed. *)
Lemma dict_fromkeys_closed l :
  closed R l →
  NoDup (dict_fromkeys l) ∧ closed R (dict_fromkeys l)
  ∧ ∀ x, x ∈ dict_fromkeys l ↔ x ∈ l.
Proof.
  intros Hcl. apply (fromkeys_fold l [] []); [done|constructor|apply closed_nil|done].
Qed.

Lemma before_trans (l : list A) x y z :
  NoDup l → before l x y → before l y z → before l x z.
Proof.
  intros Hnd (i & j & Hi & Hj & Hij) (j' & k & Hj' & Hk & Hjk).
  assert (j = j') as <- by (by eapply NoDup_lookup).
  exists i, k. split_and!; [done|done|lia].
Qed.

(** In a closed list without duplicates, whatever an element requires, in
    one step or in several, stands strictly before it. *)
Lemma closed_before l f c :
  NoDup l → closed R l → f ∈ l → tc R f c → before l c f.
Proof.
  intros Hnd Hcl Hf Htc. induction Htc as [f c HR|f g c HR Htc IH].
  - apply list_elem_of_lookup in Hf as [i Hi].
    destruct (Hcl i f c Hi HR) as (j & Hj & Hc). by exists j, i.
  - assert (before l g f) as Hgf.
    { apply list_elem_of_lookup in Hf as [i Hi].
      destruct (Hcl i f g Hi HR) as (j & Hj & Hg). by exists j, i. }
    eapply before_trans; [done| |done].
    apply IH. destruct Hgf as (j & _ & Hg & _). apply list_elem_of_lookup. eauto.
Qed.

End Order.

Lemma getitem_Ok {A} (d : gmap string A) (k : string) (v : A) :
  getitem d k = Ok v ↔ d !! k = Some v.
Proof. unfold getitem. destruct (d !! k); split; congruence. Qed.

Section Topsort.

Variable lookup : gmap string FunctionDef.

Lemma callees_requires f cs :
  comprehension (getitem lookup) (called_functions (type f)) = Ok cs →
  ∀ c, c ∈ cs ↔ requires lookup f c.
Proof.
  intros HF%comprehension_Ok c. split.
  - intros [i Hi]%list_elem_of_lookup.
    destruct (Forall2_lookup_r _ _ _ _ _ HF Hi) as (n & Hn & Hg%getitem_Ok).
    exists n. split; [|done]. apply list_elem_of_lookup. eauto.
  - intros (n & [i Hi]%list_elem_of_lookup & Hc).
    destruct (Forall2_lookup_l _ _ _ _ _ HF Hi) as (c' & Hc' & Hg%getitem_Ok).
    assert (c' = c) as -> by congruence.
    apply list_elem_of_lookup. eauto.
Qed.

Lemma topsort_loop_expansion self :
  (∀ cs o, self cs = Ok o → expansion lookup cs o) →
  ∀ fs ret out,
    closed (requires lookup) ret →
    topsort_loop self lookup fs ret = Ok out →
    closed (requires lookup) out
    ∧ (∀ f, f ∈ ret ∨ f ∈ fs → f ∈ out)
    ∧ (∀ x, x ∈ out → x ∈ ret ∨ x ∈ fs ∨ ∃ n, lookup !! n = Some x).
Proof.
  intros Hself fs. induction fs as [|f rest IH]; intros ret out Hret; simpl.
  - intros [= <-]. split_and!; [done| |by left].
    intros f [?|?%elem_of_nil]; done.
  - intros (cs & Hcs & (sub & Hsub & Hloop)%bind_Ok)%bind_Ok.
    pose proof (callees_requires _ _ Hcs) as Hreq.
    destruct (Hself _ _ Hsub) as (Hcl & Hin & Hout).
    apply IH in Hloop as (Hcl' & Hin' & Hout').
    + split_and!; [done| |].
      * intros g [Hg|[->|Hg]%elem_of_cons]; apply Hin'.
        -- left. apply elem_of_app. by left.
        -- left. rewrite !elem_of_app, list_elem_of_singleton. auto.
        -- by right.
      * intros x Hx. destruct (Hout' x Hx) as [Hr|[Hr|Hr]].
        -- apply elem_of_app in Hr as [Hr|Hr]; [by left|].
           apply elem_of_app in Hr as [Hr|Hr%list_elem_of_singleton].
           ++ destruct (Hout x Hr) as [Hc|Hc]; [|by right; right].
              apply Hreq in Hc as (n & _ & Hn). right; right. eauto.
           ++ subst. right; left. by left.
        -- right; left. by right.
        -- by right; right.
    + apply closed_app; [done|]. apply closed_snoc; [done|].
      intros c Hc. apply Hin. by apply Hreq.
Qed.

Lemma topsort_helper_expansion depth :
  ∀ fs out, _topsort_helper depth fs lookup = Ok out → expansion lookup fs out.
Proof.
  induction depth as [|depth IH]; intros fs out; simpl; [done|].
  intros H. eapply topsort_loop_expansion in H as (Hcl & Hin & Hout);
    [|apply IH|apply closed_nil].
  split_and!; [done|by auto|].
  intros x Hx. destruct (Hout x Hx) as [[]%elem_of_nil|[?|?]]; auto.
Qed.

(** Each function of a successful loop had its callees found and expanded. *)
Lemma topsort_loop_inv self fs : ∀ ret out,
  topsort_loop self lookup fs ret = Ok out →
  ∀ f, f ∈ fs →
    ∃ cs sub, comprehension (getitem lookup) (called_functions (type f)) = Ok cs
              ∧ self cs = Ok sub.
Proof.
  induction fs as [|g rest IH]; intros ret out; simpl.
  - by intros _ f ?%elem_of_nil.
  - intros (cs & Hcs & (sub & Hsub & Hloop)%bind_Ok)%bind_Ok f
      [->|Hf]%elem_of_cons; [by eauto|by eapply IH].
Qed.

Lemma topsort_loop_total self fs :
  (∀ f, f ∈ fs →
     ∃ cs sub, comprehension (getitem lookup) (called_functions (type f)) = Ok cs
               ∧ self cs = Ok sub) →
  ∀ ret, ∃ out, topsort_loop self lookup fs ret = Ok out.
Proof.
  induction fs as [|g rest IH]; intros Hall ret; simpl; [by eauto|].
  destruct (Hall g) as (cs & sub & -> & Hsub); [by left|]. simpl.
  rewrite Hsub. simpl. apply IH. intros f Hf. apply Hall. by right.
Qed.

(** A successful expansion meets no cycle. *)
Lemma topsort_helper_no_cycle depth : ∀ fs out,
  _topsort_helper depth fs lookup = Ok out →
  ∀ f g, f ∈ fs → rtc (requires lookup) f g → ¬ tc (requires lookup) g g.
Proof.
  induction depth as [|depth IH]; intros fs out; simpl; [done|].
  intros Hloop f g Hf Hfg Hgg.
  destruct (topsort_loop_inv _ _ _ _ Hloop f Hf) as (cs & sub & Hcs & Hsub).
  assert (∃ c, requires lookup f c ∧ rtc (requires lookup) c g) as (c & Hfc & Hcg).
  { inversion Hfg as [|? c ? Hfc Hcg]; subst; [|by eauto].
    inversion Hgg as [? ? HR|? c ? HR Hc]; subst.
    - exists g. by split.
    - exists c. split; [done|]. by apply tc_rtc. }
  eapply (IH cs sub Hsub c g); [|done|done].
  by apply (callees_requires _ _ Hcs).
Qed.

(** The functions among which the lookup resolves every called name. *)
Variable all : list FunctionDef.
Hypothesis lookup_range : ∀ n c, lookup !! n = Some c → c ∈ all.
Hypothesis lookup_total :
  ∀ f n, f ∈ all → n ∈ called_functions (type f) → is_Some (lookup !! n).

Lemma callees_total f :
  f ∈ all →
  ∃ cs, comprehension (getitem lookup) (called_functions (type f)) = Ok cs.
Proof.
  intros Hf.
  assert (∀ ns, (∀ n, n ∈ ns → is_Some (lookup !! n)) →
                ∃ cs, comprehension (getitem lookup) ns = Ok cs) as Hns.
  { induction ns as [|n ns IH]; intros Hall; simpl; [by eauto|].
    destruct (Hall n) as [c Hc]; [by left|].
    destruct IH as [cs Hcs]; [intros; apply Hall; by right|].
    exists (c :: cs). rewrite Hcs. unfold getitem. by rewrite Hc. }
  apply Hns. intros n Hn. by eapply lookup_total.
Qed.

(** With every name resolved, the only exception is [RecursionError]. *)
Lemma topsort_helper_raises depth : ∀ fs e,
  (∀ f, f ∈ fs → f ∈ all) →
  _topsort_helper depth fs lookup = Raise e → e = RecursionError.
Proof.
  induction depth as [|depth IH]; intros fs e Hfs; simpl; [by intros [= <-]|].
  generalize (@nil FunctionDef) as ret.
  induction fs as [|f rest IHfs]; intros ret; simpl; [done|].
  destruct (callees_total f) as [cs Hcs]; [apply Hfs; by left|].
  rewrite Hcs. simpl.
  destruct (_topsort_helper depth cs lookup) as [sub|e'] eqn:Hsub; simpl.
  - apply IHfs. intros g Hg. apply Hfs. by right.
  - intros [= <-]. eapply IH; [|done].
    intros c (n & _ & Hc)%(callees_requires _ _ Hcs). by eapply lookup_range.
Qed.

Hypothesis no_cycle : ∀ f, f ∈ all → ¬ tc (requires lookup) f f.

(** The ancestors [anc] of the functions [fs] being expanded are distinct,
    so a depth above the number of functions is never used up. *)
Lemma topsort_helper_total depth : ∀ fs anc,
  NoDup anc →
  (∀ a, a ∈ anc → a ∈ all) →
  (∀ f, f ∈ fs → f ∈ all) →
  (∀ a f, a ∈ anc → f ∈ fs → tc (requires lookup) a f) →
  length all < length anc + depth →
  ∃ out, _topsort_helper depth fs lookup = Ok out.
Proof.
  induction depth as [|depth IH]; intros fs anc Hnd Hanc Hfs Hreach Hlen.
  - apply NoDup_submseteq with (k := all) in Hnd; [|done].
    apply submseteq_length in Hnd. lia.
  - simpl. apply topsort_loop_total. intros f Hf.
    destruct (callees_total f) as [cs Hcs]; [by apply Hfs|].
    pose proof (callees_requires _ _ Hcs) as Hreq.
    destruct (IH cs (f :: anc)) as [sub Hsub].
    + constructor; [|done]. intros Ha.
      apply (no_cycle f); [by apply Hfs|by apply Hreach].
    + intros a [->|Ha]%elem_of_cons; [by apply Hfs|by apply Hanc].
    + intros c (n & _ & Hc)%Hreq. by eapply lookup_range.
    + intros a c [->|Ha]%elem_of_cons Hc%Hreq; [by apply tc_once|].
      eapply tc_r; [|done]. by apply Hreach.
    + simpl. lia.
    + by eauto.
Qed.

End Topsort.

(** *** The name dict *)

Lemma name_dict_fold_notin fs : ∀ (d : gmap string FunctionDef) n,
  n ∉ name <$> fs →
  foldl (λ d f, <[name f := f]> d) d fs !! n = d !! n.
Proof.
  induction fs as [|f fs IH]; intros d n Hn; simpl; [done|].
  rewrite fmap_cons, not_elem_of_cons in Hn. destruct Hn as [Hne Hn].
  rewrite IH by done. by rewrite lookup_insert_ne.
Qed.

Lemma name_dict_fold_Some fs : ∀ (d : gmap string FunctionDef) n c,
  foldl (λ d f, <[name f := f]> d) d fs !! n = Some c →
  (c ∈ fs ∧ name c = n) ∨ d !! n = Some c.
Proof.
  induction fs as [|f fs IH]; intros d n c; simpl; [by right|].
  intros [[Hc Hn]|Hd]%IH.
  - left. split; [by right|done].
  - destruct (decide (name f = n)) as [<-|Hne].
    + rewrite lookup_insert_eq in Hd. injection Hd as <-. left. split; [by left|done].
    + rewrite lookup_insert_ne in Hd by done. by right.
Qed.

Lemma name_dict_fold_is_Some fs : ∀ (d : gmap string FunctionDef) c,
  c ∈ fs → is_Some (foldl (λ d f, <[name f := f]> d) d fs !! name c).
Proof.
  induction fs as [|f fs IH]; intros d c Hc; simpl; [by apply elem_of_nil in Hc|].
  destruct (decide (name c ∈ name <$> fs)) as [Hin|Hnotin].
  - apply list_elem_of_fmap in Hin as (c' & -> & Hc'). by apply IH.
  - rewrite name_dict_fold_notin by done.
    apply elem_of_cons in Hc as [->|Hc].
    + rewrite lookup_insert_eq. by eexists.
    + exfalso. apply Hnotin. apply list_elem_of_fmap. eauto.
Qed.

Lemma name_dict_lookup fs n c :
  name_dict fs !! n = Some c → c ∈ fs ∧ name c = n.
Proof. by intros [?|?]%name_dict_fold_Some. Qed.

Lemma name_dict_unique fs c :
  NoDup (name <$> fs) → c ∈ fs → name_dict fs !! name c = Some c.
Proof.
  intros Hnd Hc.
  destruct (name_dict_fold_is_Some fs ∅ c Hc) as [c' Hc'].
  pose proof Hc' as [Hin Hname]%name_dict_lookup.
  enough (c' = c) as <- by done.
  apply list_elem_of_lookup in Hin as [i Hi]. apply list_elem_of_lookup in Hc as [j Hj].
  assert (i = j) as ->; [|congruence].
  eapply NoDup_lookup; [exact Hnd| |]; rewrite list_lookup_fmap.
  - rewrite Hi. simpl. by rewrite Hname.
  - by rewrite Hj.
Qed.

Lemma requires_calls fs f c : requires (name_dict fs) f c → calls fs f c.
Proof. intros (n & Hn & [Hc <-]%name_dict_lookup). by split. Qed.

Lemma calls_requires fs f c :
  NoDup (name <$> fs) → calls fs f c → requires (name_dict fs) f c.
Proof. intros Hnd [Hc Hn]. exists (name c). split; [done|]. by apply name_dict_unique. Qed.

Lemma requires_reaches fs f c : tc (requires (name_dict fs)) f c → reaches fs f c.
Proof.
  induction 1 as [f c H|f g c H _ IH].
  - apply tc_once. by apply requires_calls.
  - eapply tc_l; [|done]. by apply requires_calls.
Qed.

Lemma reaches_requires fs f c :
  NoDup (name <$> fs) → reaches fs f c → tc (requires (name_dict fs)) f c.
Proof.
  intros Hnd. induction 1 as [f c H|f g c H _ IH].
  - apply tc_once. by apply calls_requires.
  - eapply tc_l; [|done]. by apply calls_requires.
Qed.

Lemma name_dict_total fs :
  resolved fs →
  ∀ f n, f ∈ fs → n ∈ called_functions (type f) → is_Some (name_dict fs !! n).
Proof.
  intros Hres f n Hf Hn. destruct (Hres f n Hf Hn) as (c & Hc & <-).
  by apply name_dict_fold_is_Some.
Qed.

(** A run that returns shows that the call graph has no cycle. *)
Lemma topsort_Ok_acyclic depth fs out :
  NoDup (name <$> fs) → _topsort depth fs = Ok out → acyclic fs.
Proof.
  intros Hnd (keys & Hkeys & _)%bind_Ok f Hf Hcycle%reaches_requires; [|done].
  by eapply topsort_helper_no_cycle.
Qed.

(** C3. For a function list with unique names, every called name resolved
    and an acyclic call graph, and an interpreter that allows more nested
    calls than there are functions, [_topsort] returns a sequence that holds
    each input function exactly once and in which every function reachable
    from a function [f], in one call or in several, stands strictly before
    [f]. *)
Theorem topsort_callees_first (depth : nat) (fs : list FunctionDef) :
  NoDup (name <$> fs) →
  resolved fs →
  acyclic fs →
  length fs < depth →
  ∃ out, _topsort depth fs = Ok out
         ∧ NoDup out
         ∧ out ≡ₚ fs
         ∧ ∀ f c, f ∈ fs → reaches fs f c → before out c f.
Proof.
  intros Hnd Hres Hacyc Hdepth.
  assert (∀ n c, name_dict fs !! n = Some c → c ∈ fs) as Hrange
    by (intros n c [? _]%name_dict_lookup; done).
  destruct (topsort_helper_total (name_dict fs) fs Hrange (name_dict_total fs Hres))
    with (depth := depth) (fs := fs) (anc := @nil FunctionDef) as [keys Hkeys].
  - intros f Hf Hcycle%requires_reaches. by apply (Hacyc f).
  - constructor.
  - by intros a ?%elem_of_nil.
  - done.
  - by intros a f ?%elem_of_nil.
  - simpl. lia.
  - destruct (topsort_helper_expansion _ _ _ _ Hkeys) as (Hcl & Hin & Hout).
    destruct (dict_fromkeys_closed _ _ Hcl) as (Hnd' & Hcl' & Hel).
    assert (∀ f, f ∈ dict_fromkeys keys ↔ f ∈ fs) as Hsame.
    { intros f. rewrite Hel. split; [|by auto].
      intros [?|[n Hn]]%Hout; [done|by eapply Hrange]. }
    exists (dict_fromkeys keys). unfold _topsort. rewrite Hkeys. simpl.
    split_and!; [done|done| |].
    + apply NoDup_Permutation; [done| |done].
      eapply NoDup_fmap_1. exact Hnd.
    + intros f c Hf Hreach. eapply closed_before; [done|done| |].
      * by apply Hsame.
      * by apply reaches_requires.
Qed.

Lemma topsort_callees_first_witness :
  ∃ out, _topsort 4 [fn_pay; fn_send; fn_helper] = Ok out
         ∧ NoDup out
         ∧ out ≡ₚ [fn_pay; fn_send; fn_helper]
         ∧ ∀ f c, f ∈ [fn_pay; fn_send; fn_helper] →
                  reaches [fn_pay; fn_send; fn_helper] f c → before out c f.
Proof.
  assert (NoDup (name <$> [fn_pay; fn_send; fn_helper])) as Hnd
    by compute_done.
  apply (topsort_callees_first 4 [fn_pay; fn_send; fn_helper]).
  - exact Hnd.
  - intros f n Hf Hn. exists fn_helper. split; [by do 2 right; left|].
    repeat (apply elem_of_cons in Hf as [->|Hf]); simpl in Hn.
    + by apply list_elem_of_singleton in Hn.
    + by apply list_elem_of_singleton in Hn.
    + by apply elem_of_nil in Hn.
    + by apply elem_of_nil in Hf.
  - eapply (topsort_Ok_acyclic 4); [exact Hnd|]. vm_compute. reflexivity.
  - simpl. lia.
Defined.

(** C4, as the code has it. [_topsort_helper] keeps no record of the
    functions it is expanding: on a function list with unique names and
    every called name resolved whose call graph has a cycle, the expansion
    uses up every bound on nested calls, and the run ends in
    [RecursionError], whatever the bound. *)
Theorem topsort_cycle_exhausts_depth (depth : nat) (fs : list FunctionDef) (f : FunctionDef) :
  NoDup (name <$> fs) →
  resolved fs →
  f ∈ fs →
  reaches fs f f →
  _topsort depth fs = Raise RecursionError.
Proof.
  intros Hnd Hres Hf Hcycle. unfold _topsort.
  destruct (_topsort_helper depth fs (name_dict fs)) as [keys|e] eqn:Hrun; simpl.
  - exfalso. eapply topsort_helper_no_cycle; [exact Hrun|exact Hf|done|].
    by apply reaches_requires.
  - f_equal. eapply (topsort_helper_raises (name_dict fs) fs); [| |done|exact Hrun].
    + by intros n c [? _]%name_dict_lookup.
    + by apply name_dict_total.
Qed.

Lemma fn_loop_cycle : reaches [fn_loop] fn_loop fn_loop.
Proof. apply tc_once. split; [by left|]. simpl. by left. Qed.

Lemma fn_loop_resolved : resolved [fn_loop].
Proof.
  intros f n ->%list_elem_of_singleton Hn. exists fn_loop.
  split; [by left|]. simpl in Hn. by apply list_elem_of_singleton in Hn.
Qed.

Lemma topsort_cycle_exhausts_depth_witness :
  _topsort 1000 [fn_loop] = Raise RecursionError.
Proof.
  apply (topsort_cycle_exhausts_depth 1000 [fn_loop] fn_loop).
  - compute_done.
  - exact fn_loop_resolved.
  - by left.
  - exact fn_loop_cycle.
Defined.

Lemma topsort_helper_S depth fs lookup :
  _topsort_helper (S depth) fs lookup
  = topsort_loop (λ callees, _topsort_helper depth callees lookup) lookup fs [].
Proof. reflexivity. Qed.

Lemma topsort_loop_cons self lookup f rest ret :
  topsort_loop self lookup (f :: rest) ret
  = (callees ← comprehension (getitem lookup) (called_functions (type f));
     sub ← self callees;
     topsort_loop self lookup rest (ret ++ sub ++ [f])).
Proof. reflexivity. Qed.

(** C4, as stated, fails: [loop] calls itself, and for every bound on nested
    calls the run ends in [RecursionError]; no run reports the cycle. *)
Lemma topsort_self_call_recursion_error :
  reaches [fn_loop] fn_loop fn_loop
  ∧ ∀ depth, _topsort depth [fn_loop] = Raise RecursionError.
Proof.
  split; [exact fn_loop_cycle|]. intros depth.
  enough (_topsort_helper depth [fn_loop] (name_dict [fn_loop]) = Raise RecursionError)
    as H by (unfold _topsort; by rewrite H).
  induction depth as [|depth IH]; [done|].
  rewrite topsort_helper_S, topsort_loop_cons.
  replace (comprehension (getitem (name_dict [fn_loop]))
             (called_functions (type fn_loop)))
    with (Ok [fn_loop] : result (list FunctionDef)) by (by vm_compute).
  cbn [mbind result_bind]. by rewrite IH.
Qed.

(** ** The label allocator *)

Lemma generate_label_eq name c :
  _generate_label name c = ("label" +:+ pretty (c + 1), c + 1).
Proof. reflexivity. Qed.

Lemma label_inj (c1 c2 : nat) :
  "label" +:+ pretty c1 = "label" +:+ pretty c2 → c1 = c2.
Proof. intros H%String.app_inj. exact (pretty_nat_inj _ _ H). Qed.

Lemma generate_labels_spec names : ∀ c,
  (generate_labels names c).2 = c + length names
  ∧ ∀ i, i < length names →
      (generate_labels names c).1 !! i = Some ("label" +:+ pretty (c + i + 1)).
Proof.
  induction names as [|n names IH]; intros c; simpl.
  - split; [lia|]. intros i Hi. lia.
  - destruct (generate_labels names (c + 1)) as [ls c'] eqn:Hrest.
    destruct (IH (c + 1)) as [Hc Hl]. rewrite Hrest in Hc, Hl. simpl in *.
    split; [lia|]. intros [|i] Hi; simpl.
    + by replace (c + 0 + 1) with (c + 1) by lia.
    + rewrite Hl by lia. by replace (c + 1 + i + 1) with (c + S i + 1) by lia.
Qed.

Lemma generate_labels_length names c :
  length (generate_labels names c).1 = length names.
Proof.
  revert c. induction names as [|n names IH]; intros c; simpl; [done|].
  specialize (IH (c + 1)). destruct (generate_labels names (c + 1)). simpl in *. lia.
Qed.

(** C5, as the code has it. The labels allocated at the call sites of one
    compilation, from whatever value the counter has at its start, are
    pairwise different, also for call sites that pass the same name; the
    label of the [i]-th site is the fixed prefix [label] followed by the
    decimal value of the counter, which grows by one with each site; the
    name passed in is no part of it. *)
Theorem labels_distinct_and_numbered (names : list string) (c : nat) :
  NoDup (generate_labels names c).1
  ∧ (generate_labels names c).2 = c + length names
  ∧ (∀ i, i < length names →
       (generate_labels names c).1 !! i = Some ("label" +:+ pretty (c + i + 1)))
  ∧ ∀ names', length names' = length names →
       (generate_labels names' c).1 = (generate_labels names c).1.
Proof.
  destruct (generate_labels_spec names c) as [Hc Hl].
  split_and!; [|done|done|].
  - apply NoDup_alt. intros i j l Hi Hj.
    pose proof (lookup_lt_Some _ _ _ Hi) as Hi'.
    pose proof (lookup_lt_Some _ _ _ Hj) as Hj'.
    rewrite generate_labels_length in Hi', Hj'.
    rewrite Hl in Hi by done. rewrite Hl in Hj by done.
    assert (c + i + 1 = c + j + 1); [|lia].
    apply label_inj. congruence.
  - intros names' Hlen.
    destruct (generate_labels_spec names' c) as [_ Hl'].
    apply list_eq. intros i.
    destruct (decide (i < length names)) as [Hi|Hi].
    + rewrite Hl by done. rewrite Hl' by lia. done.
    + rewrite !lookup_ge_None_2; [done| |]; rewrite generate_labels_length; lia.
Qed.

(** C5, as stated, fails: the label allocated for a name does not hold the
    name; two different names get the same label from the same counter. *)
Lemma generate_label_drops_prefix :
  _generate_label "internal_transfer_call" 0 = ("label1", 1)
  ∧ _generate_label "internal_helper_call" 0 = ("label1", 1)
  ∧ ∀ suffix, "label1" ≠ "internal_transfer_call" +:+ suffix.
Proof. split_and!; [done|done|]. intros suffix. simpl. discriminate. Qed.

(** ** The hazard check *)

Lemma contains_self_call_eq v args m :
  contains_self_call (IR v args m)
  = is_self_call m || existsb contains_self_call args.
Proof.
  reflexivity.
Qed.

Lemma existsb_elem_of {A} (p : A → bool) (l : list A) :
  existsb p l = true ↔ ∃ a, a ∈ l ∧ p a = true.
Proof.
  rewrite existsb_exists. split; intros (a & Ha & Hp); exists a; split; try done;
    by apply list_elem_of_In.
Qed.

(** A flagged node anywhere in a tree makes the tree contain a self-call. *)
Lemma subtree_contains_self_call s t :
  subtree s t → contains_self_call s = true → contains_self_call t = true.
Proof.
  induction 1 as [|v args m a Ha _ IH]; [done|]. intros Hs.
  rewrite contains_self_call_eq. apply orb_true_iff. right.
  apply existsb_elem_of. exists a. split; [done|by apply IH].
Qed.

Lemma flagged_contains_self_call n :
  is_self_call (ir_meta n) = true → contains_self_call n = true.
Proof. destruct n as [v args m]. rewrite contains_self_call_eq. simpl. by intros ->. Qed.

Section LoweringProps.

Context {ExprAst Context : Type} {lowering : @Lowering ExprAst Context}.

Lemma M_bind_Ok {A B} (m : @M Context A) (f : A → @M Context B) st b st' :
  (m ≫= f) st = Ok (b, st') ↔ ∃ a st1, m st = Ok (a, st1) ∧ f a st1 = Ok (b, st').
Proof.
  unfold mbind, M_bind. destruct (m st) as [[a st1]|e]; split.
  - intros H. by exists a, st1.
  - by intros (a' & st1' & [= -> ->] & H).
  - done.
  - by intros (a' & st1' & [=] & _).
Qed.

Lemma args_as_tuple_contains_self_call (args_ir : list IRnode) :
  contains_self_call (args_as_tuple args_ir) = true
  ↔ ∃ a, a ∈ args_ir ∧ contains_self_call a = true.
Proof.
  unfold args_as_tuple. rewrite contains_self_call_eq. simpl.
  apply existsb_elem_of.
Qed.

Lemma return_buffer_Ok sig return_label st buf st' :
  return_buffer sig return_label st = Ok (buf, st') →
  label_counter st' = label_counter st
  ∧ context st' = after_return_buffer sig (context st).
Proof.
  unfold return_buffer, after_return_buffer.
  destruct (return_type sig) as [t|].
  - intros (pos & st1 & Hnew & [= <- <-])%M_bind_Ok.
    unfold new_variable in Hnew.
    destruct (new_internal_variable (context st) t) as [p ctx].
    by injection Hnew as <- <-.
  - by intros [= <- <-].
Qed.

Lemma copy_args_direct sig tuple st :
  contains_self_call tuple = false →
  copy_args sig tuple st = Ok (make_setter (args_dst sig) tuple, st).
Proof. unfold copy_args. by intros ->. Qed.

Lemma copy_args_staged sig tuple st :
  contains_self_call tuple = true →
  copy_args sig tuple st
  = let '(pos, ctx) := new_internal_variable (context st) (dst_tuple_t sig) in
    let tmp_args_buf := memory_at pos (dst_tuple_t sig) in
    Ok (op "seq" [make_setter tmp_args_buf tuple;
                  make_setter (args_dst sig) tmp_args_buf],
        {| label_counter := label_counter st; context := ctx |}).
Proof.
  unfold copy_args. intros ->. unfold mbind, M_bind, new_variable.
  by destruct (new_internal_variable (context st) (dst_tuple_t sig)).
Qed.

Lemma copy_args_label_counter sig tuple st copy st' :
  copy_args sig tuple st = Ok (copy, st') → label_counter st' = label_counter st.
Proof.
  destruct (contains_self_call tuple) eqn:Hc.
  - rewrite copy_args_staged by done.
    destruct (new_internal_variable _ _). by intros [= <- <-].
  - rewrite copy_args_direct by done. by intros [= <- <-].
Qed.

Lemma generate_label_Ok name (st : @State Context) l st' :
  generate_label name st = Ok (l, st') →
  l = "label" +:+ pretty (label_counter st + 1)
  ∧ st' = {| label_counter := label_counter st + 1; context := context st |}.
Proof. unfold generate_label. rewrite generate_label_eq. by intros [= <- <-]. Qed.

(** The steps of a lowering that returns. *)
Lemma ir_for_self_call_Ok call_expr st o st' :
  ir_for_self_call call_expr st = Ok (o, st') →
  ∃ sig pos_args_ir kw_args_ir st1 buf st2 copy,
    let return_label := "label" +:+ pretty (label_counter st1 + 1) in
    call_arguments call_expr st = Ok ((sig, pos_args_ir, kw_args_ir), st1)
    ∧ is_constant (context st1) && is_modifying (call_type call_expr) = false
    ∧ internal sig = true
    ∧ return_buffer sig return_label
        {| label_counter := label_counter st1 + 1; context := context st1 |}
      = Ok (buf, st2)
    ∧ copy_args sig (args_as_tuple (pos_args_ir ++ kw_args_ir)) st2 = Ok (copy, st')
    ∧ o = call_sequence call_expr sig return_label buf copy.
Proof.
  unfold ir_for_self_call.
  intros ([[sig pos] kw] & st1 & Hargs & H)%M_bind_Ok.
  apply M_bind_Ok in H as (ctx & st1' & [= <- <-] & H).
  destruct (is_constant (context st1) && is_modifying (call_type call_expr)) eqn:Hconst;
    [done|].
  destruct (internal sig) eqn:Hint; [|done]. simpl in H.
  apply M_bind_Ok in H as (lbl & st_l & [-> ->]%generate_label_Ok & H).
  apply M_bind_Ok in H as (buf & st2 & Hbuf & H).
  apply M_bind_Ok in H as (copy & st3 & Hcopy & [= <- <-]).
  exists sig, pos, kw, st1, buf, st2, copy. done.
Qed.

(** C10, first part: the tree the lowerer returns carries the flag. *)
Lemma ir_for_self_call_flagged call_expr st o st' :
  ir_for_self_call call_expr st = Ok (o, st') → is_self_call (ir_meta o) = true.
Proof.
  intros (sig & pos & kw & st1 & buf & st2 & copy & _ & _ & _ & _ & _ & ->)
    %ir_for_self_call_Ok.
  reflexivity.
Qed.

(** C2. A lowering that returns has evaluated the positional and the
    defaulted arguments into one composite. When no argument contains a
    self-call, the second child of the returned sequence is the copy of the
    composite straight into the callee's frame, and the context is the one
    left by the allocation of the return buffer: no other buffer was
    allocated. When an argument contains a self-call, the lowerer allocates
    one more variable, and the second child is a sequence of two copies: the
    composite into the new buffer, then the buffer into the callee's frame. *)
Theorem self_call_argument_staging call_expr st o st' :
  ir_for_self_call call_expr st = Ok (o, st') →
  ∃ sig pos_args_ir kw_args_ir st1,
    call_arguments call_expr st = Ok ((sig, pos_args_ir, kw_args_ir), st1)
    ∧ let args_ir := pos_args_ir ++ kw_args_ir in
      let ctx := after_return_buffer sig (context st1) in
      ((∀ a, a ∈ args_ir → contains_self_call a = false) →
         ir_args o !! 1 = Some (make_setter (args_dst sig) (args_as_tuple args_ir))
         ∧ context st' = ctx)
      ∧ ((∃ a, a ∈ args_ir ∧ contains_self_call a = true) →
           let tmp_args_buf :=
             memory_at (new_internal_variable ctx (dst_tuple_t sig)).1 (dst_tuple_t sig) in
           ir_args o !! 1
           = Some (op "seq" [make_setter tmp_args_buf (args_as_tuple args_ir);
                             make_setter (args_dst sig) tmp_args_buf])
           ∧ context st' = (new_internal_variable ctx (dst_tuple_t sig)).2).
Proof.
  intros (sig & pos & kw & st1 & buf & st2 & copy & Hargs & _ & _ & Hbuf & Hcopy & ->)
    %ir_for_self_call_Ok.
  exists sig, pos, kw, st1. split; [done|]. simpl.
  apply return_buffer_Ok in Hbuf as [_ Hctx]. simpl in Hctx.
  split.
  - intros Hnone.
    assert (contains_self_call (args_as_tuple (pos ++ kw)) = false) as Hc.
    { apply not_true_is_false. intros (a & Ha & Hs)%args_as_tuple_contains_self_call.
      rewrite Hnone in Hs by done. done. }
    rewrite copy_args_direct in Hcopy by done. injection Hcopy as <- <-. done.
  - intros Hsome%args_as_tuple_contains_self_call.
    rewrite copy_args_staged in Hcopy by done. rewrite Hctx in Hcopy.
    destruct (new_internal_variable _ _) as [p ctx']. by injection Hcopy as <- <-.
Qed.

(** C10. The tree returned for a call carries the flag; and when such a tree
    stands anywhere within an argument of another call, the lowering of that
    call takes the staged path: one more variable is allocated and the
    second child of the returned sequence copies the composite into it and
    then it into the callee's frame. *)
Theorem lowered_call_flagged_and_staged inner_call st0 inner st0' call_expr st o st' :
  ir_for_self_call inner_call st0 = Ok (inner, st0') →
  ir_for_self_call call_expr st = Ok (o, st') →
  is_self_call (ir_meta inner) = true
  ∧ is_self_call (ir_meta o) = true
  ∧ ∀ sig pos_args_ir kw_args_ir st1,
      call_arguments call_expr st = Ok ((sig, pos_args_ir, kw_args_ir), st1) →
      (∃ a, a ∈ pos_args_ir ++ kw_args_ir ∧ subtree inner a) →
      let args_ir := pos_args_ir ++ kw_args_ir in
      let ctx := after_return_buffer sig (context st1) in
      let tmp_args_buf :=
        memory_at (new_internal_variable ctx (dst_tuple_t sig)).1 (dst_tuple_t sig) in
      contains_self_call (args_as_tuple args_ir) = true
      ∧ ir_args o !! 1
        = Some (op "seq" [make_setter tmp_args_buf (args_as_tuple args_ir);
                          make_setter (args_dst sig) tmp_args_buf])
      ∧ context st' = (new_internal_variable ctx (dst_tuple_t sig)).2.
Proof.
  intros Hinner Hrun.
  pose proof (ir_for_self_call_flagged _ _ _ _ Hinner) as Hflag.
  split_and!; [done|by eapply ir_for_self_call_flagged|].
  intros sig pos kw st1 Hargs (a & Ha & Hsub).
  assert (∃ a, a ∈ pos ++ kw ∧ contains_self_call a = true) as Hsome.
  { exists a. split; [done|]. eapply subtree_contains_self_call; [done|].
    by apply flagged_contains_self_call. }
  apply args_as_tuple_contains_self_call in Hsome.
  apply ir_for_self_call_Ok in Hrun
    as (sig' & pos' & kw' & st1' & buf & st2 & copy & Hargs' & _ & _ & Hbuf & Hcopy & ->).
  rewrite Hargs in Hargs'. injection Hargs' as <- <- <- <-.
  apply return_buffer_Ok in Hbuf as [_ Hctx]. simpl in Hctx.
  rewrite copy_args_staged in Hcopy by done. rewrite Hctx in Hcopy.
  simpl. destruct (new_internal_variable _ _) as [p ctx']. by injection Hcopy as <- <-.
Qed.

(** *** The label of a lowered call *)





End LoweringProps.

(** *** The helper [_align_kwargs] *)

(** As the module stands, the helper reads the unbound name [args_ir] as
    soon as its two checks have passed. *)
Lemma align_kwargs_unbound {ExprAst} func_t pos_args_ir (call_expr : @Call ExprAst) :
  is_internal func_t = true →
  min_arg_count func_t ≤ length pos_args_ir ≤ max_arg_count func_t →
  _align_kwargs self_call_scope func_t pos_args_ir call_expr = Raise (NameError "args_ir").
Proof.
  intros Hint [Hmin Hmax]. unfold _align_kwargs, _check. rewrite Hint.
  rewrite !bool_decide_eq_true_2 by done. reflexivity.
Qed.

(** With [args_ir] bound to the positional arguments and [sig] to a
    signature, the slice of line 38 takes the first defaults, as many as
    there are parameters left without an argument. *)
Lemma align_kwargs_bound {ExprAst} func_t pos_args_ir (call_expr : @Call ExprAst) sig b :
  is_internal func_t = true →
  min_arg_count func_t ≤ length pos_args_ir ≤ max_arg_count func_t →
  _align_kwargs
    {| scope_args_ir := Some pos_args_ir; scope_sig := Some sig; scope_CompilerPanic := b |}
    func_t pos_args_ir call_expr
  = Ok (sig, take (max_arg_count func_t - length pos_args_ir) (default_values sig).*2).
Proof.
  intros Hint [Hmin Hmax]. unfold _align_kwargs, _check. rewrite Hint.
  rewrite !bool_decide_eq_true_2 by done. simpl. unfold slice_to.
  rewrite decide_True by lia. do 3 f_equal. lia.
Qed.

(** *** The lowerer on the test data *)


Lemma self_call_argument_staging_witness :
  ∃ o st',
    ir_for_self_call (lowering := test_lowering)
      (test_call "f" [Lit 7; SelfCallE "f" [Lit 9]]) test_state = Ok (o, st')
    ∧ ∃ sig pos_args_ir kw_args_ir st1,
        call_arguments (lowering := test_lowering)
          (test_call "f" [Lit 7; SelfCallE "f" [Lit 9]]) test_state
        = Ok ((sig, pos_args_ir, kw_args_ir), st1)
        ∧ let args_ir := pos_args_ir ++ kw_args_ir in
          let ctx := after_return_buffer (lowering := test_lowering) sig (context st1) in
          ((∀ a, a ∈ args_ir → contains_self_call a = false) →
             ir_args o !! 1
             = Some (make_setter (Lowering := test_lowering) (args_dst sig)
                       (args_as_tuple args_ir))
             ∧ context st' = ctx)
          ∧ ((∃ a, a ∈ args_ir ∧ contains_self_call a = true) →
               let tmp_args_buf :=
                 memory_at
                   (new_internal_variable (Lowering := test_lowering) ctx (dst_tuple_t sig)).1
                   (dst_tuple_t sig) in
               ir_args o !! 1
               = Some (op "seq"
                         [make_setter (Lowering := test_lowering) tmp_args_buf
                            (args_as_tuple args_ir);
                          make_setter (Lowering := test_lowering) (args_dst sig)
                            tmp_args_buf])
               ∧ context st'
                 = (new_internal_variable (Lowering := test_lowering) ctx
                      (dst_tuple_t sig)).2).
Proof.
  eexists _, _. split; [cbv; reflexivity|].
  apply (self_call_argument_staging (lowering := test_lowering)). cbv. reflexivity.
Defined.

Lemma lowered_call_flagged_and_staged_witness :
  ∃ inner st0' o st' sig pos_args_ir kw_args_ir st1,
    ir_for_self_call (lowering := test_lowering) (test_call "f" [Lit 9]) test_state
    = Ok (inner, st0')
    ∧ ir_for_self_call (lowering := test_lowering)
        (test_call "f" [Lit 7; SelfCallE "f" [Lit 9]]) test_state = Ok (o, st')
    ∧ call_arguments (lowering := test_lowering)
        (test_call "f" [Lit 7; SelfCallE "f" [Lit 9]]) test_state
      = Ok ((sig, pos_args_ir, kw_args_ir), st1)
    ∧ inner ∈ pos_args_ir ++ kw_args_ir
    ∧ is_self_call (ir_meta inner) = true
    ∧ is_self_call (ir_meta o) = true
    ∧ contains_self_call (args_as_tuple (pos_args_ir ++ kw_args_ir)) = true
    ∧ ir_args o !! 1
      = Some (op "seq"
                [op "set" [memory_at 1088 (dst_tuple_t sig);
                           args_as_tuple (pos_args_ir ++ kw_args_ir)];
                 op "set" [args_dst sig; memory_at 1088 (dst_tuple_t sig)]]).
Proof.
  eexists _, _, _, _, _, _, _, _.
  split; [cbv; reflexivity|]. split; [cbv; reflexivity|].
  split; [cbv; reflexivity|]. split; [simpl; by right; left|].
  edestruct (@lowered_call_flagged_and_staged) with
      (lowering := test_lowering) (inner_call := test_call "f" [Lit 9])
      (st0 := test_state) (call_expr := test_call "f" [Lit 7; SelfCallE "f" [Lit 9]])
      (st := test_state)
    as (Hinner & Houter & Hstaged); [cbv; reflexivity|cbv; reflexivity|].
  split; [exact Hinner|]. split; [exact Houter|].
  edestruct Hstaged as (Hcontains & Hcopy & _);
    [cbv; reflexivity|eexists; split; [|apply subtree_refl]; simpl; by right; left|].
  split; [exact Hcontains|exact Hcopy].
Defined.

(** C9 on the code. [f(a, b=1, c=2)] is called with two arguments, so the
    parameter left without an argument is [c], the last one. As the module
    stands, [_align_kwargs] raises [NameError]; with its names bound as its
    body uses them, the slice of line 38 returns the default of [b], the
    first one, and the lowered composite is [(7, 8, 1)]. *)
Theorem align_kwargs_takes_first_default :
  last_n (max_arg_count (test_func_t "f") - 2) (default_values (test_sig "f")).*2 = [Lit 2]
  ∧ _align_kwargs self_call_scope (test_func_t "f") [int 7; int 8]
      (test_call "f" [Lit 7; Lit 8])
    = Raise (NameError "args_ir")
  ∧ _align_kwargs (test_bound_scope [int 7; int 8] "f") (test_func_t "f") [int 7; int 8]
      (test_call "f" [Lit 7; Lit 8])
    = Ok (test_sig "f", [Lit 1])
  ∧ ∃ o st',
      ir_for_self_call (lowering := test_lowering) (test_call "f" [Lit 7; Lit 8]) test_state
      = Ok (o, st')
      ∧ ir_args o !! 1
        = Some (op "set" [args_dst (test_sig "f"); args_as_tuple [int 7; int 8; int 1]]).
Proof.
  split; [reflexivity|]. split; [reflexivity|]. split; [reflexivity|].
  eexists _, _. split; [cbv; reflexivity|reflexivity].
Qed.

(** ** The runtime assembler *)

Lemma foldl_snoc_map {A B} (g : A → B) (l : list A) : ∀ acc,
  foldl (λ section x, section ++ [g x]) acc l = acc ++ (g <$> l).
Proof.
  induction l as [|x l IH]; intros acc; simpl.
  - by rewrite app_nil_r.
  - rewrite IH. by rewrite <- app_assoc.
Qed.

Lemma count_callvalue_asserts_app l1 l2 :
  count_callvalue_asserts (l1 ++ l2)
  = count_callvalue_asserts l1 + count_callvalue_asserts l2.
Proof. unfold count_callvalue_asserts. by rewrite filter_app, length_app. Qed.

Lemma count_callvalue_asserts_fmap {A} (g : A → IRnode) (l : list A) :
  (∀ x, is_callvalue_assert (g x) = false) → count_callvalue_asserts (g <$> l) = 0.
Proof.
  intros Hg. unfold count_callvalue_asserts.
  induction l as [|x l IH]; simpl; [done|].
  rewrite filter_cons_False; [done|]. rewrite Hg. simpl. tauto.
Qed.

Lemma elem_of_external_functions fs f :
  f ∈ external_functions fs ↔ f ∈ fs ∧ is_internal (signature f) = false.
Proof.
  unfold external_functions. rewrite list_elem_of_filter, Is_true_false. tauto.
Qed.

Lemma elem_of_regular_functions fs f :
  f ∈ regular_functions fs ↔ f ∈ fs ∧ regular f.
Proof.
  unfold regular_functions, regular.
  rewrite list_elem_of_filter, elem_of_external_functions, Is_true_false. tauto.
Qed.

Lemma elem_of_payables fs f :
  f ∈ payables fs ↔ f ∈ fs ∧ regular f ∧ is_payable (signature f) = true.
Proof.
  unfold payables. rewrite list_elem_of_filter, elem_of_regular_functions, Is_true_true.
  tauto.
Qed.

Lemma elem_of_nonpayables fs f :
  f ∈ nonpayables fs ↔ f ∈ fs ∧ regular f ∧ is_payable (signature f) = false.
Proof.
  unfold nonpayables. rewrite list_elem_of_filter, elem_of_regular_functions, Is_true_false.
  tauto.
Qed.

Lemma default_function_Some fs d :
  default_function fs = Some d → is_fallback_of fs d.
Proof.
  unfold default_function. intros Hd%head_Some_elem_of.
  apply list_elem_of_filter in Hd as [Hfb%Is_true_true [? ?]%elem_of_external_functions].
  done.
Qed.

Lemma default_function_None fs d :
  default_function fs = None → ¬ is_fallback_of fs d.
Proof.
  unfold default_function. intros Hnil%head_None (Hd & Hext & Hfb).
  assert (d ∈ filter (λ f, is_fallback (signature f)) (external_functions fs)) as Hin.
  { apply list_elem_of_filter. split; [by apply Is_true_true|].
    by apply elem_of_external_functions. }
  rewrite Hnil in Hin. by apply elem_of_nil in Hin.
Qed.

Lemma default_function_unique fs d :
  at_most_one_fallback fs → is_fallback_of fs d → default_function fs = Some d.
Proof.
  intros Hone Hd. destruct (default_function fs) as [d'|] eqn:Hdef.
  - f_equal. apply Hone; [by apply default_function_Some|done].
  - by apply default_function_None with (d := d) in Hdef.
Qed.

Lemma batch_payable_check_true fs :
  batch_payable_check fs = true
  → has_nonpayable_regular fs ∧ (at_most_one_fallback fs → fallback_absent_or_nonpayable fs).
Proof.
  unfold batch_payable_check. intros [Hlen%bool_decide_eq_true Hdef]%andb_true_iff.
  split.
  - destruct (nonpayables fs) as [|f l] eqn:Hnp; [simpl in Hlen; lia|].
    exists f. apply elem_of_nonpayables. rewrite Hnp. by left.
  - intros Hone d Hd. unfold default_is_nonpayable in Hdef.
    rewrite (default_function_unique fs d Hone Hd) in Hdef.
    by apply negb_true_iff in Hdef.
Qed.

Lemma batch_payable_check_intro fs :
  has_nonpayable_regular fs → fallback_absent_or_nonpayable fs →
  batch_payable_check fs = true.
Proof.
  intros (f & Hf) Hfb. unfold batch_payable_check. apply andb_true_iff. split.
  - apply bool_decide_eq_true. apply elem_of_nonpayables in Hf.
    destruct (nonpayables fs); [by apply elem_of_nil in Hf|simpl; lia].
  - unfold default_is_nonpayable.
    destruct (default_function fs) as [d|] eqn:Hdef; [|done].
    apply negb_true_iff. apply Hfb. by apply default_function_Some.
Qed.

Section AssemblerProps.

Context {codegen : Codegen}.

Lemma selector_section_eq fs sigs ctx :
  selector_section fs sigs ctx
  = ((λ f, generate_ir_for_function f sigs ctx false) <$> payables fs)
    ++ (if batch_payable_check fs then [assert_callvalue_zero] else [])
    ++ ((λ f, generate_ir_for_function f sigs ctx (batch_payable_check fs))
          <$> nonpayables fs).
Proof.
  unfold selector_section, skip_nonpayable_check.
  rewrite (foldl_snoc_map (λ f, generate_ir_for_function f sigs ctx false)). simpl.
  destruct (batch_payable_check fs);
    rewrite (foldl_snoc_map (λ f, generate_ir_for_function f sigs ctx _));
    by rewrite <- ?app_assoc, ?app_nil_l.
Qed.

(** The runtime tree of a module with an external function, child by child
    (lines 103-113). *)
Lemma runtime_ir_tree fs sigs ctx :
  external_functions fs ≠ [] →
  (_runtime_ir fs sigs ctx).1
  = op "seq"
      ([ op "with" [sym "_calldata_method_id";
                    shr 224 (op "calldataload" [int 0]);
                    op "seq" (selector_section fs sigs ctx)];
         op "goto" [sym "fallback"];
         op "label" [sym "fallback"; op "var_list" []; fallback_ir fs sigs ctx] ]
       ++ values (internal_functions_map fs sigs ctx)).
Proof.
  intros Hext. unfold _runtime_ir. rewrite decide_False; [done|].
  by intros ?%nil_length_inv.
Qed.

Lemma runtime_ir_no_external fs sigs ctx :
  external_functions fs = [] →
  (_runtime_ir fs sigs ctx).1 = op "seq" (values (internal_functions_map fs sigs ctx)).
Proof. intros Hext. unfold _runtime_ir. by rewrite Hext. Qed.

Lemma FunctionDef_bool_true f : FunctionDef_bool f = true ↔ body f ≠ [].
Proof.
  unfold FunctionDef_bool. rewrite bool_decide_eq_true.
  destruct (body f); simpl; split; intros H; congruence.
Qed.

Lemma FunctionDef_bool_false f : FunctionDef_bool f = false ↔ body f = [].
Proof.
  unfold FunctionDef_bool. rewrite bool_decide_eq_false.
  destruct (body f); simpl; split; intros H; try done.
  - by contradict H.
  - lia.
Qed.

Lemma fallback_ir_Some fs sigs ctx d :
  default_function fs = Some d →
  fallback_ir fs sigs ctx
  = if FunctionDef_bool d
    then generate_ir_for_function d sigs ctx (batch_payable_check fs)
    else default_revert.
Proof. unfold fallback_ir, skip_nonpayable_check. by intros ->. Qed.

(** The fallback body of a module whose fallback is missing or has an empty
    body. *)
Lemma fallback_ir_default fs sigs ctx :
  (∀ d, is_fallback_of fs d → body d = []) → fallback_ir fs sigs ctx = default_revert.
Proof.
  intros Hempty. unfold fallback_ir.
  destruct (default_function fs) as [d|] eqn:Hdef; [|done].
  apply default_function_Some, Hempty, FunctionDef_bool_false in Hdef. by rewrite Hdef.
Qed.

(** X15. For runtime functions with at most one fallback and a per-function
    generator that never returns the bare value check: the nonpayable group
    holds the regular functions that are not payable. When there is a
    nonpayable regular function and the fallback is absent or nonpayable, the
    dispatch body is the payable functions' IR generated with the flag off,
    then one combined check that the call value is zero, then the nonpayable
    functions' IR generated with the flag on, and a fallback whose body
    holds a statement is generated with the flag on. In every other case the
    dispatch body is the payable functions' IR followed by the nonpayable
    functions' IR, all generated with the flag off, with no combined check,
    and such a fallback is generated with the flag off. A module without
    fallback, or whose fallback has an empty body, gets the default revert.
    The dispatch body is bound under the selector of the call data and the
    fallback body stands under the label [fallback]. *)
Theorem runtime_dispatch_batching fs sigs ctx :
  at_most_one_fallback fs →
  (∀ f skip, is_callvalue_assert (generate_ir_for_function f sigs ctx skip) = false) →
  (∀ f, f ∈ payables fs ↔ f ∈ fs ∧ regular f ∧ is_payable (signature f) = true)
  ∧ (∀ f, f ∈ nonpayables fs ↔ f ∈ fs ∧ regular f ∧ is_payable (signature f) = false)
  ∧ (has_nonpayable_regular fs ∧ fallback_absent_or_nonpayable fs →
       selector_section fs sigs ctx
       = ((λ f, generate_ir_for_function f sigs ctx false) <$> payables fs)
         ++ [assert_callvalue_zero]
         ++ ((λ f, generate_ir_for_function f sigs ctx true) <$> nonpayables fs)
       ∧ count_callvalue_asserts (selector_section fs sigs ctx) = 1
       ∧ ∀ d, is_fallback_of fs d → body d ≠ [] →
              fallback_ir fs sigs ctx = generate_ir_for_function d sigs ctx true)
  ∧ (¬ (has_nonpayable_regular fs ∧ fallback_absent_or_nonpayable fs) →
       selector_section fs sigs ctx
       = ((λ f, generate_ir_for_function f sigs ctx false) <$> payables fs)
         ++ ((λ f, generate_ir_for_function f sigs ctx false) <$> nonpayables fs)
       ∧ count_callvalue_asserts (selector_section fs sigs ctx) = 0
       ∧ ∀ d, is_fallback_of fs d → body d ≠ [] →
              fallback_ir fs sigs ctx = generate_ir_for_function d sigs ctx false)
  ∧ ((∀ d, is_fallback_of fs d → body d = []) → fallback_ir fs sigs ctx = default_revert)
  ∧ (external_functions fs ≠ [] →
       ir_value (_runtime_ir fs sigs ctx).1 = IRstr "seq"
       ∧ ir_args (_runtime_ir fs sigs ctx).1 !! 0
         = Some (op "with" [sym "_calldata_method_id";
                            shr 224 (op "calldataload" [int 0]);
                            op "seq" (selector_section fs sigs ctx)])
       ∧ ir_args (_runtime_ir fs sigs ctx).1 !! 1 = Some (op "goto" [sym "fallback"])
       ∧ ir_args (_runtime_ir fs sigs ctx).1 !! 2
         = Some (op "label" [sym "fallback"; op "var_list" []; fallback_ir fs sigs ctx])).
Proof.
  intros Hone Hgen.
  split; [apply elem_of_payables|]. split; [apply elem_of_nonpayables|].
  assert (∀ d, is_fallback_of fs d → body d ≠ [] →
               fallback_ir fs sigs ctx
               = generate_ir_for_function d sigs ctx (batch_payable_check fs)) as Hfb.
  { intros d Hd Hbody%FunctionDef_bool_true.
    rewrite (fallback_ir_Some fs sigs ctx d) by (by apply default_function_unique).
    by rewrite Hbody. }
  split_and!.
  - intros [Hhas Hnonpay].
    pose proof (batch_payable_check_intro fs Hhas Hnonpay) as Hbatch.
    rewrite selector_section_eq, Hbatch. split_and!; [done| |].
    + rewrite !count_callvalue_asserts_app, !count_callvalue_asserts_fmap by done.
      reflexivity.
    + intros d Hd Hbody. by rewrite (Hfb d Hd Hbody), Hbatch.
  - intros Hnot.
    assert (batch_payable_check fs = false) as Hbatch.
    { apply not_true_is_false. intros [Hhas Hnonpay]%batch_payable_check_true. auto. }
    rewrite selector_section_eq, Hbatch. split_and!; [done| |].
    + rewrite !count_callvalue_asserts_app, !count_callvalue_asserts_fmap by done.
      reflexivity.
    + intros d Hd Hbody. by rewrite (Hfb d Hd Hbody), Hbatch.
  - apply fallback_ir_default.
  - intros Hext. by rewrite runtime_ir_tree.
Qed.

End AssemblerProps.

Lemma fallback_of_example d :
  is_fallback_of [fn_helper; fn_pay; fn_send; fn_fallback] d → d = fn_fallback.
Proof.
  intros (Hd & _ & Hfb).
  repeat (apply elem_of_cons in Hd as [->|Hd]); try discriminate Hfb; [done|].
  by apply elem_of_nil in Hd.
Qed.

Lemma runtime_dispatch_batching_witness :
  at_most_one_fallback [fn_helper; fn_pay; fn_send; fn_fallback]
  ∧ (∀ f skip,
       is_callvalue_assert
         (generate_ir_for_function (Codegen := test_codegen) f ∅ ctx_plain skip) = false)
  ∧ has_nonpayable_regular [fn_helper; fn_pay; fn_send; fn_fallback]
  ∧ fallback_absent_or_nonpayable [fn_helper; fn_pay; fn_send; fn_fallback]
  ∧ selector_section (codegen := test_codegen)
      [fn_helper; fn_pay; fn_send; fn_fallback] ∅ ctx_plain
    = [test_ir "pay" false; assert_callvalue_zero; test_ir "send" true]
  ∧ count_callvalue_asserts
      (selector_section (codegen := test_codegen)
         [fn_helper; fn_pay; fn_send; fn_fallback] ∅ ctx_plain)
    = 1
  ∧ fallback_ir (codegen := test_codegen)
      [fn_helper; fn_pay; fn_send; fn_fallback] ∅ ctx_plain
    = test_ir "__default__" true.
Proof.
  assert (at_most_one_fallback [fn_helper; fn_pay; fn_send; fn_fallback]) as Hone.
  { intros d d' Hd Hd'. by rewrite (fallback_of_example d Hd), (fallback_of_example d' Hd'). }
  assert (has_nonpayable_regular [fn_helper; fn_pay; fn_send; fn_fallback]) as Hhas.
  { exists fn_send. split_and!; [by do 2 right; left|done|done]. }
  assert (fallback_absent_or_nonpayable [fn_helper; fn_pay; fn_send; fn_fallback]) as Hfb.
  { intros d Hd. by rewrite (fallback_of_example d Hd). }
  assert (∀ f skip,
            is_callvalue_assert
              (generate_ir_for_function (Codegen := test_codegen) f ∅ ctx_plain skip)
            = false) as Hgen by done.
  destruct (runtime_dispatch_batching (codegen := test_codegen)
              [fn_helper; fn_pay; fn_send; fn_fallback] ∅ ctx_plain Hone Hgen)
    as (_ & _ & Hbatch & _).
  destruct (Hbatch (conj Hhas Hfb)) as (Hsel & Hcount & Hfallback).
  split_and!; [exact Hone|exact Hgen|exact Hhas|exact Hfb| |exact Hcount|].
  - rewrite Hsel. reflexivity.
  - rewrite (Hfallback fn_fallback); [reflexivity| |done].
    split_and!; [by do 3 right; left|done|done].
Defined.

(** A payable fallback turns the batching off: no combined check, and the
    nonpayable function and the fallback are generated with the flag off. *)
Example payable_fallback_example :
  selector_section (codegen := test_codegen)
    [fn_pay; fn_send; fn_fallback_payable; fn_helper] ∅ ctx_plain
  = [test_ir "pay" false; test_ir "send" false]
  ∧ fallback_ir (codegen := test_codegen)
      [fn_pay; fn_send; fn_fallback_payable; fn_helper] ∅ ctx_plain
    = test_ir "__default__" false.
Proof. split; reflexivity. Qed.

(** C1 on the code. The module has the nonpayable function [send] and a
    nonpayable fallback whose body is empty (a docstring and nothing else),
    so the claim's condition holds and the fallback is present. The dispatch
    body is as the claim says: one combined check, then [send] generated
    with the flag on. But the test of line 90 is on the truth value of the
    node, which is false for an empty body: no IR is generated for the
    fallback, with whatever flag, and the block under the label [fallback]
    is the default revert, whereas the same fallback with one statement is
    generated with the flag on. The test of line 70 is [is None]: it takes
    the same node as present, and for a payable fallback with an empty body
    it turns the batching off, while line 90 still puts the default revert
    in its place. *)
Theorem empty_fallback_gets_default_revert :
  let fallback := docstring_only fn_fallback in
  let fs := [fn_send; fallback] in
  let fs_payable := [fn_send; docstring_only fn_fallback_payable] in
  (has_nonpayable_regular fs ∧ fallback_absent_or_nonpayable fs
   ∧ is_fallback_of fs fallback)
  ∧ (∀ (codegen : Codegen) sigs ctx,
       (_runtime_ir fs sigs ctx).1
       = op "seq"
           [op "with" [sym "_calldata_method_id";
                       shr 224 (op "calldataload" [int 0]);
                       op "seq" [assert_callvalue_zero;
                                 generate_ir_for_function fn_send sigs ctx true]];
            op "goto" [sym "fallback"];
            op "label" [sym "fallback"; op "var_list" []; default_revert]]
       ∧ fallback_ir fs sigs ctx = default_revert
       ∧ fallback_ir [fn_send; fn_fallback] sigs ctx
         = generate_ir_for_function fn_fallback sigs ctx true)
  ∧ (∀ skip,
       fallback_ir (codegen := test_codegen) fs ∅ ctx_plain
       ≠ generate_ir_for_function (Codegen := test_codegen) fallback ∅ ctx_plain skip)
  ∧ default_is_nonpayable fs_payable = false
  ∧ ∀ (codegen : Codegen) sigs ctx,
      selector_section fs_payable sigs ctx = [generate_ir_for_function fn_send sigs ctx false]
      ∧ fallback_ir fs_payable sigs ctx = default_revert.
Proof.
  simpl. split_and!.
  - exists fn_send. split_and!; [by left|done|done].
  - intros d (Hd & _ & Hfb).
    repeat (apply elem_of_cons in Hd as [->|Hd]); try discriminate Hfb; [done|].
    by apply elem_of_nil in Hd.
  - split_and!; [by right; left|done|done].
  - intros codegen sigs ctx. split_and!; reflexivity.
  - intros skip. discriminate.
  - reflexivity.
  - intros codegen sigs ctx. split; reflexivity.
Qed.

(** ** The deploy assembler *)

Lemma append_called_Ok internal called : ∀ deploy_code out,
  append_called internal called deploy_code = Ok out →
  ∃ bodies, out = deploy_code ++ bodies
            ∧ Forall2 (λ n body, getitem_ordered internal n = Ok body) called bodies.
Proof.
  induction called as [|n called IH]; intros deploy_code out; simpl.
  - intros [= <-]. exists []. by rewrite app_nil_r.
  - intros (body & Hbody & (bodies & -> & Hall)%IH)%bind_Ok.
    exists (body :: bodies). rewrite <- app_assoc. split; [done|by constructor].
Qed.

Section DeployProps.

Context {codegen : Codegen}.

Lemma filter_constructor_nil (fs : list FunctionDef) :
  (∀ f, f ∈ fs → is_constructor (from_FunctionDef f) = false) →
  filter (λ f, is_constructor (signature f)) (set_signature <$> fs) = [].
Proof.
  intros Hall. induction fs as [|f fs IH]; [done|].
  rewrite fmap_cons, filter_cons_False.
  - apply IH. intros g Hg. apply Hall. by right.
  - simpl. rewrite Hall by (by left). simpl. tauto.
Qed.

(** Without a constructor: nonzero immutables raise [CompilerPanic]; with
    none the deploy tree is the deploy instruction around the runtime tree,
    and the [return] statement then reads the name [local_sigs]. *)
Lemma module_without_constructor scope depth global_ctx fs :
  _topsort depth (functions global_ctx) = Ok fs →
  (∀ f, f ∈ fs → is_constructor (from_FunctionDef f) = false) →
  ∃ runtime,
    generate_ir_for_module scope depth global_ctx
    = if decide (immutable_section_bytes global_ctx ≠ 0%Z)
      then Raise (CompilerPanic "unreachable")
      else match scope_local_sigs scope with
           | Some local_sigs =>
               Ok (op "seq" [op "deploy" [int 0; runtime; int 0]], runtime, local_sigs)
           | None => Raise (NameError "local_sigs")
           end.
Proof.
  intros Htop Hnone. unfold generate_ir_for_module. rewrite Htop. simpl.
  rewrite filter_constructor_nil by done. simpl.
  destruct (_runtime_ir _ _ _) as [runtime internal]. exists runtime.
  case_decide; [done|]. simpl. by destruct (scope_local_sigs scope).
Qed.

(** As the module stands, a run ends in the exception of the ordering, or
    reads [all_sigs] for a constructor whose body holds a statement, or takes
    the branch without constructor, which raises for nonzero immutables and
    otherwise reaches the [return] statement, where [local_sigs] is read. The
    IR that the per-function generator returns plays no part. *)
Lemma module_as_written depth global_ctx :
  generate_ir_for_module module_scope depth global_ctx
  = function_defs ← _topsort depth (functions global_ctx);
    let without_constructor :=
      if decide (immutable_section_bytes global_ctx ≠ 0%Z)
      then Raise (CompilerPanic "unreachable")
      else Raise (NameError "local_sigs") in
    match head (filter (λ f, is_constructor (signature f))
                  (set_signature <$> function_defs)) with
    | Some init =>
        if FunctionDef_bool init then Raise (NameError "all_sigs")
        else without_constructor
    | None => without_constructor
    end.
Proof.
  unfold generate_ir_for_module.
  destruct (_topsort depth (functions global_ctx)) as [fs|e]; [|done]. simpl.
  destruct (_runtime_ir _ _ _) as [runtime internal].
  destruct (head (filter _ (set_signature <$> fs))) as [init|]; simpl.
  - destruct (FunctionDef_bool init); [done|]. by case_decide.
  - by case_decide.
Qed.

End DeployProps.

(** C8 on the code. The module of the example has no constructor. With 32
    bytes of immutables the run raises [CompilerPanic]. With none, the deploy
    tree is built as the deploy instruction with offset 0 and padding 0 around
    the runtime tree, but the [return] statement of line 169 reads
    [local_sigs], which nothing binds: the run raises [NameError] and returns
    no tree. Were the name bound, the tree would be returned. *)
Theorem module_without_constructor_raises :
  generate_ir_for_module (codegen := test_codegen) module_scope 10 ctx_plain_immutables
  = Raise (CompilerPanic "unreachable")
  ∧ generate_ir_for_module (codegen := test_codegen) module_scope 10 ctx_plain
    = Raise (NameError "local_sigs")
  ∧ ∀ all_sigs local_sigs, ∃ runtime,
      generate_ir_for_module (codegen := test_codegen)
        {| scope_all_sigs := all_sigs; scope_local_sigs := Some local_sigs |} 10 ctx_plain
      = Ok (op "seq" [op "deploy" [int 0; runtime; int 0]], runtime, local_sigs).
Proof.
  split; [by vm_compute|]. split; [by vm_compute|].
  intros all_sigs local_sigs.
  destruct (module_without_constructor (codegen := test_codegen)
              {| scope_all_sigs := all_sigs; scope_local_sigs := Some local_sigs |}
              10 ctx_plain [fn_helper; fn_pay; fn_send]) as [runtime Hrun].
  - by vm_compute.
  - intros f Hf. repeat (apply elem_of_cons in Hf as [->|Hf]); try done.
    by apply elem_of_nil in Hf.
  - exists runtime. exact Hrun.
Qed.

(** C7 on the code. The constructor calls [a] and [a] calls [b], so [b] is
    reachable from the constructor. As the module stands, the call of line
    151 reads [all_sigs], which nothing binds: the run raises [NameError].
    Were the names bound, the loop of lines 161-162 would append the body of
    [a], the one function the constructor calls itself, and not the body of
    [b]: the deploy tree has three children. *)
Theorem deploy_omits_callee_of_callee :
  reaches [fn_init; fn_a; fn_b] fn_init fn_b
  ∧ generate_ir_for_module (codegen := test_codegen) module_scope 10 ctx_init
    = Raise (NameError "all_sigs")
  ∧ ∀ all_sigs local_sigs,
      generate_ir_for_module (codegen := test_codegen)
        {| scope_all_sigs := Some all_sigs; scope_local_sigs := Some local_sigs |} 10 ctx_init
      = Ok (op "seq"
              [test_ir "__init__" false;
               op "deploy" [int 0; op "seq" [test_ir "b" false; test_ir "a" false]; int 0];
               test_ir "a" false],
            op "seq" [test_ir "b" false; test_ir "a" false],
            local_sigs).
Proof.
  split.
  - apply tc_l with fn_a; [|apply tc_once]; (split; [|simpl; by left]).
    + by right; left.
    + by do 2 right; left.
  - split; [by vm_compute|]. intros all_sigs local_sigs. by vm_compute.
Qed.

(** ** Two runs in one process *)




(** * Further properties *)

(** ** The function orderer: what a run that returns shows *)

(** X1. Whenever [_topsort] returns, with or without repeated entries or
    names in its input, the sequence has no duplicates, holds the functions
    of the input and no other, and every function that the name lookup gives
    for a called name stands strictly before the caller. *)
Theorem topsort_returns_sorted (depth : nat) (fs out : list FunctionDef) :
  _topsort depth fs = Ok out →
  NoDup out
  ∧ (∀ f, f ∈ out ↔ f ∈ fs)
  ∧ ∀ f c, f ∈ out → requires (name_dict fs) f c → before out c f.
Proof.
  intros (keys & Hkeys & [= <-])%bind_Ok.
  destruct (topsort_helper_expansion _ _ _ _ Hkeys) as (Hcl & Hin & Hout).
  destruct (dict_fromkeys_closed _ _ Hcl) as (Hnd & Hcl' & Hel).
  split_and!; [done| |].
  - intros f. rewrite Hel. split; [|by auto].
    intros [?|[n [? _]%name_dict_lookup]]%Hout; done.
  - intros f c [i Hi]%list_elem_of_lookup Hreq.
    destruct (Hcl' i f c Hi Hreq) as (j & Hj & Hc). by exists j, i.
Qed.

Lemma topsort_returns_sorted_witness :
  _topsort 3 [fn_pay; fn_helper; fn_pay] = Ok [fn_helper; fn_pay]
  ∧ NoDup [fn_helper; fn_pay]
  ∧ (∀ f, f ∈ [fn_helper; fn_pay] ↔ f ∈ [fn_pay; fn_helper; fn_pay])
  ∧ ∀ f c, f ∈ [fn_helper; fn_pay] →
           requires (name_dict [fn_pay; fn_helper; fn_pay]) f c →
           before [fn_helper; fn_pay] c f.
Proof.
  assert (_topsort 3 [fn_pay; fn_helper; fn_pay] = Ok [fn_helper; fn_pay]) as Hrun
    by (by vm_compute).
  split; [exact Hrun|].
  exact (topsort_returns_sorted 3 [fn_pay; fn_helper; fn_pay] [fn_helper; fn_pay] Hrun).
Defined.

(** A run that returns has nested one call for the list, one for each step
    of a call chain and one for the callees of the chain's last function. *)
Lemma topsort_helper_chain lookup depth : ∀ fs out,
  _topsort_helper depth fs lookup = Ok out →
  ∀ f g n, f ∈ fs → nsteps (requires lookup) n f g → n + 2 ≤ depth.
Proof.
  induction depth as [|depth IH]; intros fs out; simpl; [done|].
  intros Hloop f g n Hf Hsteps.
  destruct (topsort_loop_inv _ _ _ _ _ Hloop f Hf) as (cs & sub & Hcs & Hsub).
  destruct Hsteps as [|n f c g Hfc Hcg].
  - destruct depth; [done|lia].
  - enough (n + 2 ≤ depth) by lia.
    eapply (IH cs sub Hsub c g); [|done].
    by apply (callees_requires _ _ _ Hcs).
Qed.

Lemma nsteps_calls_requires fs n f g :
  NoDup (name <$> fs) → nsteps (calls fs) n f g → nsteps (requires (name_dict fs)) n f g.
Proof.
  intros Hnd. induction 1 as [|n f c g Hfc _ IH]; [constructor|].
  econstructor; [|done]. by apply calls_requires.
Qed.

(** X2. The preconditions of the ordering are necessary. When [_topsort]
    returns on a list with unique names, every called name is the name of a
    function of the list, the call graph has no cycle, and the bound on
    nested calls exceeds by two or more the number of steps of every chain of
    calls that starts in the list: a longer chain, also in an acyclic graph,
    ends the run in an exception. *)
Theorem topsort_returns_only_if (depth : nat) (fs out : list FunctionDef) :
  NoDup (name <$> fs) →
  _topsort depth fs = Ok out →
  resolved fs
  ∧ acyclic fs
  ∧ ∀ f g n, f ∈ fs → nsteps (calls fs) n f g → n + 2 ≤ depth.
Proof.
  intros Hnd Hrun. split_and!.
  - apply bind_Ok in Hrun as (keys & Hkeys & _).
    destruct depth as [|depth]; [done|]. rewrite topsort_helper_S in Hkeys.
    intros f n Hf Hn.
    destruct (topsort_loop_inv _ _ _ _ _ Hkeys f Hf) as (cs & sub & Hcs & _).
    apply comprehension_Ok in Hcs.
    apply list_elem_of_lookup in Hn as [i Hi].
    destruct (Forall2_lookup_l _ _ _ _ _ Hcs Hi) as (c & _ & Hc%getitem_Ok).
    exists c. exact (name_dict_lookup _ _ _ Hc).
  - by eapply topsort_Ok_acyclic.
  - apply bind_Ok in Hrun as (keys & Hkeys & _).
    intros f g n Hf Hsteps%nsteps_calls_requires; [|done].
    by eapply topsort_helper_chain.
Qed.

Lemma topsort_returns_only_if_witness :
  NoDup (name <$> [fn_pay; fn_send; fn_helper])
  ∧ _topsort 3 [fn_pay; fn_send; fn_helper] = Ok [fn_helper; fn_pay; fn_send]
  ∧ resolved [fn_pay; fn_send; fn_helper]
  ∧ acyclic [fn_pay; fn_send; fn_helper]
  ∧ ∀ f g n, f ∈ [fn_pay; fn_send; fn_helper] →
             nsteps (calls [fn_pay; fn_send; fn_helper]) n f g → n + 2 ≤ 3.
Proof.
  assert (NoDup (name <$> [fn_pay; fn_send; fn_helper])) as Hnd by compute_done.
  assert (_topsort 3 [fn_pay; fn_send; fn_helper] = Ok [fn_helper; fn_pay; fn_send])
    as Hrun by (by vm_compute).
  split; [exact Hnd|]. split; [exact Hrun|].
  exact (topsort_returns_only_if 3 _ _ Hnd Hrun).
Defined.

Lemma comprehension_app_Raise {A B} (g : A → result B) pre x post e :
  (∀ y, y ∈ pre → ∃ v, g y = Ok v) → g x = Raise e →
  comprehension g (pre ++ x :: post) = Raise e.
Proof.
  intros Hpre Hx. induction pre as [|y pre IH]; simpl.
  - by rewrite Hx.
  - destruct (Hpre y) as [v ->]; [by left|]. simpl.
    rewrite IH; [done|]. intros z Hz. apply Hpre. by right.
Qed.

(** X3. A called name that no function of the list bears ends the run in
    [KeyError] with that name: shown for the first function of the list,
    whose called names are looked up before anything is expanded, and for
    the first such name among them. *)
Theorem topsort_unknown_callee (depth : nat) (f : FunctionDef) (rest : list FunctionDef)
    (pre post : list string) (n : string) :
  called_functions (type f) = pre ++ n :: post →
  (∀ m, m ∈ pre → ∃ c, c ∈ f :: rest ∧ name c = m) →
  (∀ c, c ∈ f :: rest → name c ≠ n) →
  _topsort (S depth) (f :: rest) = Raise (KeyError n).
Proof.
  intros Hcalled Hpre Hn. unfold _topsort.
  rewrite topsort_helper_S, topsort_loop_cons, Hcalled.
  rewrite (comprehension_app_Raise _ pre n post (KeyError n)); [done| |].
  - intros m (c & Hc & <-)%Hpre.
    destruct (name_dict_fold_is_Some (f :: rest) ∅ c Hc) as [v Hv].
    exists v. by apply getitem_Ok.
  - unfold getitem, name_dict. rewrite name_dict_fold_notin; [done|].
    intros (c & -> & Hc)%list_elem_of_fmap. by apply (Hn c).
Qed.

Lemma topsort_unknown_callee_witness :
  _topsort 5 [fn_orphan; fn_helper] = Raise (KeyError "missing").
Proof.
  apply (topsort_unknown_callee 4 fn_orphan [fn_helper] ["helper"] [] "missing").
  - reflexivity.
  - intros m ->%list_elem_of_singleton. exists fn_helper. split; [by right; left|done].
  - intros c Hc. repeat (apply elem_of_cons in Hc as [->|Hc]); [done|done|].
    by apply elem_of_nil in Hc.
Defined.

Lemma topsort_loop_mono self1 self2 lookup :
  (∀ cs o, self1 cs = Ok o → self2 cs = Ok o) →
  ∀ fs ret out,
    topsort_loop self1 lookup fs ret = Ok out → topsort_loop self2 lookup fs ret = Ok out.
Proof.
  intros Hself fs. induction fs as [|f rest IH]; intros ret out; [done|].
  rewrite !topsort_loop_cons.
  intros (cs & -> & (sub & Hsub%Hself & Hloop%IH)%bind_Ok)%bind_Ok.
  simpl. rewrite Hsub. done.
Qed.

Lemma topsort_helper_mono lookup depth : ∀ depth' fs out,
  depth ≤ depth' →
  _topsort_helper depth fs lookup = Ok out → _topsort_helper depth' fs lookup = Ok out.
Proof.
  induction depth as [|depth IH]; intros depth' fs out Hle; [done|].
  destruct depth' as [|depth']; [lia|]. rewrite !topsort_helper_S.
  apply topsort_loop_mono. intros cs o. apply IH. lia.
Qed.

(** X4. The bound on nested calls decides only whether the run returns: an
    ordering returned under one bound is returned under every larger one. *)
Theorem topsort_larger_bound (depth depth' : nat) (fs out : list FunctionDef) :
  depth ≤ depth' →
  _topsort depth fs = Ok out →
  _topsort depth' fs = Ok out.
Proof.
  intros Hle (keys & Hkeys & Hout)%bind_Ok. unfold _topsort.
  by rewrite (topsort_helper_mono _ _ _ _ _ Hle Hkeys).
Qed.

Lemma topsort_larger_bound_witness :
  _topsort 3 [fn_pay; fn_send; fn_helper] = Ok [fn_helper; fn_pay; fn_send]
  ∧ _topsort 1000 [fn_pay; fn_send; fn_helper] = Ok [fn_helper; fn_pay; fn_send].
Proof.
  assert (_topsort 3 [fn_pay; fn_send; fn_helper] = Ok [fn_helper; fn_pay; fn_send])
    as Hrun by (by vm_compute).
  split; [exact Hrun|].
  apply (topsort_larger_bound 3 1000 _ _); [lia|exact Hrun].
Defined.

(** *** Ordering an ordered list *)

Lemma name_dict_Permutation fs fs' :
  NoDup (name <$> fs) → fs ≡ₚ fs' → name_dict fs' = name_dict fs.
Proof.
  intros Hnd Hperm.
  assert (NoDup (name <$> fs')) as Hnd' by (by rewrite <- Hperm).
  apply map_eq. intros n.
  destruct (name_dict fs !! n) as [c|] eqn:Hc.
  - apply name_dict_lookup in Hc as [Hc <-].
    apply name_dict_unique; [done|]. by rewrite <- Hperm.
  - destruct (name_dict fs' !! n) as [c|] eqn:Hc'; [|done].
    apply name_dict_lookup in Hc' as [Hc' <-].
    rewrite name_dict_unique in Hc; [done|done|]. by rewrite Hperm.
Qed.

Lemma topsort_helper_sublist lookup depth fs out fs' :
  _topsort_helper depth fs lookup = Ok out →
  (∀ f, f ∈ fs' → f ∈ fs) →
  ∃ out', _topsort_helper depth fs' lookup = Ok out'.
Proof.
  destruct depth as [|depth]; [done|]. rewrite !topsort_helper_S.
  intros Hloop Hsub. apply topsort_loop_total. intros f Hf.
  by apply (topsort_loop_inv _ _ _ _ _ Hloop f), Hsub.
Qed.

Section Reach.

Variable lookup : gmap string FunctionDef.

Lemma topsort_loop_reached self :
  (∀ cs o, self cs = Ok o → ∀ x, x ∈ o → reached lookup cs x) →
  ∀ fs ret out,
    topsort_loop self lookup fs ret = Ok out →
    ∀ x, x ∈ out → x ∈ ret ∨ reached lookup fs x.
Proof.
  intros Hself fs. induction fs as [|f rest IH]; intros ret out.
  - intros [= <-] x Hx. by left.
  - rewrite topsort_loop_cons.
    intros (cs & Hcs & (sub & Hsub & Hloop)%bind_Ok)%bind_Ok x Hx.
    pose proof (callees_requires _ _ _ Hcs) as Hreq.
    destruct (IH _ _ Hloop x Hx) as [Hret|[Hrest|(g & Hg & Hgx)]].
    + apply elem_of_app in Hret as [Hret|Hret]; [by left|].
      right. apply elem_of_app in Hret as [Hret| ->%list_elem_of_singleton].
      * right. exists f. split; [by left|].
        destruct (Hself _ _ Hsub x Hret) as [Hc|(c & Hc & Hcx)].
        -- apply tc_once. by apply Hreq.
        -- eapply tc_l; [|done]. by apply Hreq.
      * left. by left.
    + right. left. by right.
    + right. right. exists g. split; [by right|done].
Qed.

Lemma topsort_helper_reached depth : ∀ fs out,
  _topsort_helper depth fs lookup = Ok out → ∀ x, x ∈ out → reached lookup fs x.
Proof.
  induction depth as [|depth IH]; intros fs out; [done|]. rewrite topsort_helper_S.
  intros Hloop x Hx.
  destruct (topsort_loop_reached _ (IH) _ _ _ Hloop x Hx) as [[]%elem_of_nil|]; done.
Qed.

Lemma fromkeys_absorb (acc l : list FunctionDef) :
  (∀ x, x ∈ l → x ∈ acc) → foldl fromkeys_step acc l = acc.
Proof.
  induction l as [|x l IH]; intros Hall; simpl; [done|].
  unfold fromkeys_step at 2. case_decide as Hx.
  - apply IH. intros y Hy. apply Hall. by right.
  - exfalso. apply Hx, Hall. by left.
Qed.

(** Expanding a list in which whatever an element reaches stands before it
    adds, for each element, only functions already seen and the element. *)
Lemma topsort_loop_fromkeys self (out : list FunctionDef) :
  NoDup out →
  (∀ f cs sub, f ∈ out →
     comprehension (getitem lookup) (called_functions (type f)) = Ok cs →
     self cs = Ok sub → ∀ x, x ∈ sub → before out x f) →
  ∀ todo seen ret keys,
    out = seen ++ todo →
    topsort_loop self lookup todo ret = Ok keys →
    dict_fromkeys ret = seen →
    dict_fromkeys keys = out.
Proof.
  intros Hnd Hsub todo. induction todo as [|f todo IH]; intros seen ret keys Hout.
  - intros [= <-] Hret. by rewrite Hout, app_nil_r.
  - rewrite topsort_loop_cons.
    intros (cs & Hcs & (sub & Hself & Hloop)%bind_Ok)%bind_Ok Hret.
    eapply (IH (seen ++ [f])); [by rewrite <- app_assoc|exact Hloop|].
    unfold dict_fromkeys in *. rewrite !foldl_app, Hret.
    rewrite (fromkeys_absorb seen sub).
    + change (foldl fromkeys_step seen [f]) with (fromkeys_step seen f).
      unfold fromkeys_step. case_decide as Hf; [|done]. exfalso.
      rewrite Hout in Hnd. apply NoDup_app in Hnd as (_ & Hdisj & _).
      apply (Hdisj f Hf). by left.
    + intros x Hx.
      destruct (Hsub f cs sub) with (x := x) as (i & j & Hi & Hj & Hij);
        [rewrite Hout; apply elem_of_app; right; by left|done|done|done|].
      assert (j = length seen) as ->.
      { eapply NoDup_lookup; [exact Hnd|exact Hj|].
        rewrite Hout. by apply list_lookup_middle. }
      rewrite Hout, lookup_app_l in Hi by done.
      apply list_elem_of_lookup. eauto.
Qed.

End Reach.

(** X5. Ordering is idempotent: for a list with unique names, the sequence
    [_topsort] returns is returned unchanged when [_topsort] is run on it,
    under the same bound on nested calls. *)
Theorem topsort_idempotent (depth : nat) (fs out : list FunctionDef) :
  NoDup (name <$> fs) →
  _topsort depth fs = Ok out →
  _topsort depth out = Ok out.
Proof.
  intros Hnames Hrun.
  pose proof Hrun as (keys & Hkeys & [= Hout])%bind_Ok.
  destruct (topsort_helper_expansion _ _ _ _ Hkeys) as (Hcl & Hin & Hrange).
  destruct (dict_fromkeys_closed _ _ Hcl) as (Hnd & Hcl' & Hel).
  rewrite Hout in Hnd, Hcl', Hel.
  assert (∀ f, f ∈ out ↔ f ∈ fs) as Hsame.
  { intros f. rewrite Hel. split; [|by auto].
    intros [?|[n [? _]%name_dict_lookup]]%Hrange; done. }
  assert (out ≡ₚ fs) as Hperm.
  { apply NoDup_Permutation; [done|by eapply NoDup_fmap_1|done]. }
  unfold _topsort. rewrite (name_dict_Permutation fs out) by done.
  destruct (topsort_helper_sublist _ _ _ _ out Hkeys) as [keys' Hkeys'];
    [by intros f ?%Hsame|].
  rewrite Hkeys'. simpl. f_equal.
  destruct depth as [|depth]; [done|]. rewrite topsort_helper_S in Hkeys'.
  eapply (topsort_loop_fromkeys (name_dict fs) _ out Hnd) with (seen := []);
    [|reflexivity|exact Hkeys'|reflexivity].
  intros f cs sub Hf Hcs Hsub x Hx.
  apply (closed_before (requires (name_dict fs))); [done|done|done|].
  pose proof (callees_requires _ _ _ Hcs) as Hreq.
  destruct (topsort_helper_reached _ _ _ _ Hsub x Hx) as [Hc|(c & Hc & Hcx)].
  - apply tc_once. by apply Hreq.
  - eapply tc_l; [|done]. by apply Hreq.
Qed.

Lemma topsort_idempotent_witness :
  NoDup (name <$> [fn_pay; fn_send; fn_helper])
  ∧ _topsort 3 [fn_pay; fn_send; fn_helper] = Ok [fn_helper; fn_pay; fn_send]
  ∧ _topsort 3 [fn_helper; fn_pay; fn_send] = Ok [fn_helper; fn_pay; fn_send].
Proof.
  assert (NoDup (name <$> [fn_pay; fn_send; fn_helper])) as Hnd by compute_done.
  assert (_topsort 3 [fn_pay; fn_send; fn_helper] = Ok [fn_helper; fn_pay; fn_send])
    as Hrun by (by vm_compute).
  split; [exact Hnd|]. split; [exact Hrun|].
  exact (topsort_idempotent 3 _ _ Hnd Hrun).
Defined.

(** ** The runtime assembler: the internal functions *)

Lemma getitem_ordered_setitem {A} (d : list (string * A)) k v n :
  getitem_ordered (setitem d k v) n
  = if decide (k = n) then Ok v else getitem_ordered d n.
Proof.
  induction d as [|[k' v'] d IH]; simpl.
  - by destruct (decide (k = n)).
  - destruct (decide (k' = k)) as [->|Hne]; simpl.
    + by destruct (decide (k = n)).
    + rewrite IH. destruct (decide (k' = n)) as [->|]; [|done].
      by rewrite decide_False by done.
Qed.

Lemma setitem_fresh {A} (d : list (string * A)) k v :
  k ∉ d.*1 → setitem d k v = d ++ [(k, v)].
Proof.
  induction d as [|[k' v'] d IH]; simpl; [done|].
  intros [Hne Hk]%not_elem_of_cons.
  rewrite decide_False by done. by rewrite IH.
Qed.

Section InternalMap.

Context {codegen : Codegen}.

Lemma internal_map_fold_lookup sigs ctx n (l : list FunctionDef) : ∀ acc,
  getitem_ordered
    (foldl (λ d func_ast,
              setitem d (name func_ast) (generate_ir_for_function func_ast sigs ctx false))
       acc l) n
  = match last (filter (λ f, name f = n) l) with
    | Some f => Ok (generate_ir_for_function f sigs ctx false)
    | None => getitem_ordered acc n
    end.
Proof.
  induction l as [|f l IH]; intros acc; simpl; [done|].
  rewrite IH, getitem_ordered_setitem.
  destruct (decide (name f = n)) as [Hn|Hn].
  - rewrite filter_cons_True by done. rewrite last_cons.
    by destruct (last (filter _ l)).
  - by rewrite filter_cons_False by done.
Qed.

(** X6. Looking up a name in the map of internal function bodies that
    [_runtime_ir] returns gives the IR, generated with the flag off, of the
    last internal function that bears the name, and raises [KeyError] when
    no internal function bears it. *)
Theorem internal_functions_map_lookup (fs : list FunctionDef) sigs ctx (n : string) :
  getitem_ordered (_runtime_ir fs sigs ctx).2 n
  = match last (filter (λ f, name f = n) (internal_functions fs)) with
    | Some f => Ok (generate_ir_for_function f sigs ctx false)
    | None => Raise (KeyError n)
    end.
Proof.
  assert ((_runtime_ir fs sigs ctx).2 = internal_functions_map fs sigs ctx) as ->
    by (unfold _runtime_ir; by case_decide).
  apply internal_map_fold_lookup.
Qed.

Lemma internal_map_fold_fresh sigs ctx (l : list FunctionDef) : ∀ acc,
  NoDup (acc.*1 ++ (name <$> l)) →
  foldl (λ d func_ast,
           setitem d (name func_ast) (generate_ir_for_function func_ast sigs ctx false))
    acc l
  = acc ++ ((λ f, (name f, generate_ir_for_function f sigs ctx false)) <$> l).
Proof.
  induction l as [|f l IH]; intros acc Hnd; simpl; [by rewrite app_nil_r|].
  assert (name f ∉ acc.*1) as Hfresh.
  { apply NoDup_app in Hnd as (_ & Hdisj & _). intros Hin. apply (Hdisj _ Hin). by left. }
  rewrite setitem_fresh by done. rewrite IH.
  - by rewrite <- app_assoc.
  - rewrite fmap_app. simpl. rewrite <- app_assoc. done.
Qed.

(** X7. When the internal functions have distinct names, the map
    [_runtime_ir] returns holds, in the order of the function list, one
    entry per internal function: its name and its IR generated with the flag
    off. With no external function the runtime tree is the sequence of these
    bodies. Otherwise the runtime tree is a sequence of the dispatch body
    bound under the selector of the call data, the jump to the label
    [fallback] and the fallback body under that label, followed by these
    bodies. *)
Theorem runtime_internal_bodies (fs : list FunctionDef) sigs ctx :
  NoDup (name <$> internal_functions fs) →
  let bodies :=
    (λ f, generate_ir_for_function f sigs ctx false) <$> internal_functions fs in
  (_runtime_ir fs sigs ctx).2
  = (λ f, (name f, generate_ir_for_function f sigs ctx false)) <$> internal_functions fs
  ∧ (external_functions fs = [] → (_runtime_ir fs sigs ctx).1 = op "seq" bodies)
  ∧ (external_functions fs ≠ [] →
       (_runtime_ir fs sigs ctx).1
       = op "seq"
           ([ op "with" [sym "_calldata_method_id";
                         shr 224 (op "calldataload" [int 0]);
                         op "seq" (selector_section fs sigs ctx)];
              op "goto" [sym "fallback"];
              op "label" [sym "fallback"; op "var_list" []; fallback_ir fs sigs ctx] ]
            ++ bodies)).
Proof.
  intros Hnd bodies.
  assert (internal_functions_map fs sigs ctx
          = (λ f, (name f, generate_ir_for_function f sigs ctx false))
              <$> internal_functions fs) as Hmap.
  { unfold internal_functions_map. by rewrite internal_map_fold_fresh. }
  assert (values (internal_functions_map fs sigs ctx) = bodies) as Hvalues.
  { rewrite Hmap. unfold values, bodies. rewrite <- list_fmap_compose. done. }
  split_and!.
  - rewrite <- Hmap. unfold _runtime_ir. by case_decide.
  - intros Hext. by rewrite runtime_ir_no_external, Hvalues.
  - intros Hext. by rewrite runtime_ir_tree, Hvalues.
Qed.

End InternalMap.

Lemma runtime_internal_bodies_witness :
  NoDup (name <$> internal_functions [fn_a; fn_pay; fn_b])
  ∧ (_runtime_ir (codegen := test_codegen) [fn_a; fn_pay; fn_b] ∅ ctx_plain).2
    = [("a", test_ir "a" false); ("b", test_ir "b" false)]
  ∧ (_runtime_ir (codegen := test_codegen) [fn_a; fn_pay; fn_b] ∅ ctx_plain).1
    = op "seq"
        [op "with" [sym "_calldata_method_id";
                    op "shr" [int 224; op "calldataload" [int 0]];
                    op "seq" [test_ir "pay" false]];
         op "goto" [sym "fallback"];
         op "label" [sym "fallback"; op "var_list" []; default_revert];
         test_ir "a" false; test_ir "b" false].
Proof.
  assert (NoDup (name <$> internal_functions [fn_a; fn_pay; fn_b])) as Hnd by compute_done.
  split; [exact Hnd|].
  destruct (runtime_internal_bodies (codegen := test_codegen)
              [fn_a; fn_pay; fn_b] ∅ ctx_plain Hnd) as (Hmap & _ & Htree).
  split; [rewrite Hmap; reflexivity|].
  rewrite Htree; [reflexivity|discriminate].
Defined.

(** ** The runtime assembler: the categories *)




(** ** The module assembler: every run raises *)

Lemma comprehension_getitem_Raise {A} (d : gmap string A) (l : list string) e :
  comprehension (getitem d) l = Raise e → ∃ k, e = KeyError k ∧ k ∈ l ∧ d !! k = None.
Proof.
  induction l as [|n l IH]; simpl; [done|].
  destruct (getitem d n) as [v|e0] eqn:Hn; simpl.
  - destruct (comprehension (getitem d) l) as [vs|e'] eqn:Hl; simpl.
    + intros [=].
    + intros [= <-]. destruct IH as (k & -> & Hk & Hnone); [done|].
      exists k. split_and!; [done|by right|done].
  - intros [= <-]. unfold getitem in Hn. destruct (d !! n) eqn:Hdn; [done|].
    injection Hn as <-. exists n. split_and!; [done|by left|done].
Qed.

Lemma topsort_helper_Raise lookup depth : ∀ fs e,
  _topsort_helper depth fs lookup = Raise e →
  e = RecursionError ∨ ∃ k, e = KeyError k ∧ lookup !! k = None.
Proof.
  induction depth as [|depth IH]; intros fs e; [intros [= <-]; by left|].
  rewrite topsort_helper_S. generalize (@nil FunctionDef) as ret.
  induction fs as [|f rest IHfs]; intros ret; [done|].
  rewrite topsort_loop_cons.
  destruct (comprehension _ _) as [cs|e'] eqn:Hcs; simpl.
  - destruct (_topsort_helper depth cs lookup) as [sub|e''] eqn:Hsub; simpl.
    + apply IHfs.
    + intros [= <-]. by eapply IH.
  - intros [= <-]. apply comprehension_getitem_Raise in Hcs as (k & -> & _ & Hnone).
    right. by exists k.
Qed.

(** X9. As the module stands, [generate_ir_for_module] returns for no input:
    every run raises, and the input decides the exception. When the ordering
    raises, the run ends in its exception: [RecursionError], or [KeyError]
    for a called name that no function bears. When the ordering returns and
    the first constructor in its order has a body that holds a statement,
    the run raises [NameError] for [all_sigs]. When it returns and there is
    no constructor, or the first constructor has an empty body, the run
    raises [CompilerPanic] for nonzero immutables and [NameError] for
    [local_sigs] otherwise. *)
Theorem generate_ir_for_module_raises `{codegen : Codegen} (depth : nat)
    (global_ctx : GlobalContext) :
  let run := generate_ir_for_module module_scope depth global_ctx in
  (∃ e, run = Raise e)
  ∧ (∀ e, _topsort depth (functions global_ctx) = Raise e →
       run = Raise e
       ∧ (e = RecursionError
          ∨ ∃ k, e = KeyError k ∧ name_dict (functions global_ctx) !! k = None))
  ∧ (∀ function_defs, _topsort depth (functions global_ctx) = Ok function_defs →
       let init_function :=
         head (filter (λ f, is_constructor (signature f))
                 (set_signature <$> function_defs)) in
       (∀ init, init_function = Some init → body init ≠ [] →
          run = Raise (NameError "all_sigs"))
       ∧ ((∀ init, init_function = Some init → body init = []) →
            (immutable_section_bytes global_ctx ≠ 0%Z →
               run = Raise (CompilerPanic "unreachable"))
            ∧ (immutable_section_bytes global_ctx = 0%Z →
                 run = Raise (NameError "local_sigs")))).
Proof.
  intros run. unfold run. rewrite module_as_written.
  destruct (_topsort depth (functions global_ctx)) as [fs|e] eqn:Htop; simpl.
  - assert (∀ E : exception,
              (if decide (immutable_section_bytes global_ctx ≠ 0%Z)
               then Raise (CompilerPanic "unreachable")
               else Raise (NameError "local_sigs")
               : result (IRnode * IRnode * gmap string ContractFunctionT)) = Raise E →
              (immutable_section_bytes global_ctx ≠ 0%Z → E = CompilerPanic "unreachable")
              ∧ (immutable_section_bytes global_ctx = 0%Z → E = NameError "local_sigs"))
      as Hwithout.
    { intros E. case_decide; intros [= <-]; split; intros ?; done. }
    split_and!.
    + destruct (head _) as [init|]; [destruct (FunctionDef_bool init)|];
        try case_decide; eauto.
    + intros e [=].
    + intros defs [= <-]. simpl. split.
      * intros init -> Hbody%FunctionDef_bool_true. by rewrite Hbody.
      * intros Hempty.
        destruct (head _) as [init|].
        -- rewrite (proj2 (FunctionDef_bool_false init)) by (by apply Hempty).
           case_decide; split; intros ?; done.
        -- case_decide; split; intros ?; done.
  - split_and!; [by exists e| |intros defs [=]].
    intros e' [= <-]. split; [done|].
    unfold _topsort in Htop.
    destruct (_topsort_helper _ _ _) as [keys|e'] eqn:Hhelper; [done|].
    injection Htop as <-.
    apply topsort_helper_Raise in Hhelper as [->|(k & -> & Hk)]; [by left|right; by exists k].
Qed.

(** The three cases after the ordering, on the test data: the constructor
    of [ctx_init] has a statement; the same constructor with an empty body
    takes the branch without constructor. *)
Lemma generate_ir_for_module_raises_witness :
  generate_ir_for_module (codegen := test_codegen) module_scope 10 ctx_init
  = Raise (NameError "all_sigs")
  ∧ generate_ir_for_module (codegen := test_codegen) module_scope 10
      (ctx_init_docstring 32)
    = Raise (CompilerPanic "unreachable")
  ∧ generate_ir_for_module (codegen := test_codegen) module_scope 10
      (ctx_init_docstring 0)
    = Raise (NameError "local_sigs")
  ∧ generate_ir_for_module (codegen := test_codegen) module_scope 10 ctx_orphan
    = Raise (KeyError "missing").
Proof.
  split_and!.
  - destruct (generate_ir_for_module_raises (codegen := test_codegen) 10 ctx_init)
      as (_ & _ & Hret).
    destruct (Hret [fn_b; fn_a; fn_init]) as [Hinit _]; [by vm_compute|].
    apply (Hinit fn_init); [by vm_compute|done].
  - destruct (generate_ir_for_module_raises (codegen := test_codegen) 10
                (ctx_init_docstring 32)) as (_ & _ & Hret).
    destruct (Hret [fn_b; fn_a; docstring_only fn_init]) as [_ Hempty]; [by vm_compute|].
    apply Hempty; [|done]. intros init Hinit. vm_compute in Hinit. by injection Hinit as <-.
  - destruct (generate_ir_for_module_raises (codegen := test_codegen) 10
                (ctx_init_docstring 0)) as (_ & _ & Hret).
    destruct (Hret [fn_b; fn_a; docstring_only fn_init]) as [_ Hempty]; [by vm_compute|].
    apply Hempty; [|done]. intros init Hinit. vm_compute in Hinit. by injection Hinit as <-.
  - destruct (generate_ir_for_module_raises (codegen := test_codegen) 10 ctx_orphan)
      as (_ & Hraise & _).
    apply (Hraise (KeyError "missing")). by vm_compute.
Defined.

(** ** The label allocator: one process, several compilations *)

Lemma generate_labels_app names1 names2 c :
  generate_labels (names1 ++ names2) c
  = ((generate_labels names1 c).1
       ++ (generate_labels names2 (generate_labels names1 c).2).1,
     (generate_labels names2 (generate_labels names1 c).2).2).
Proof.
  revert c. induction names1 as [|n names1 IH]; intros c; simpl.
  - by destruct (generate_labels names2 c).
  - rewrite IH. destruct (generate_labels names1 (c + 1)) as [l1 c1]. simpl.
    by destruct (generate_labels names2 c1).
Qed.

(** X10. The counter is never reset, so labels are not reused from one
    compilation to the next in the same process: the allocations of a second
    compilation, which starts from the counter the first one left, continue
    the sequence of the first, and no label of the first is allocated again. *)
Theorem labels_not_reused (names1 names2 : list string) (c : nat) :
  generate_labels (names1 ++ names2) c
  = ((generate_labels names1 c).1
       ++ (generate_labels names2 (generate_labels names1 c).2).1,
     (generate_labels names2 (generate_labels names1 c).2).2)
  ∧ ∀ l, l ∈ (generate_labels names1 c).1 →
         l ∉ (generate_labels names2 (generate_labels names1 c).2).1.
Proof.
  split; [apply generate_labels_app|].
  destruct (generate_labels_spec names1 c) as [Hc1 Hl1].
  destruct (generate_labels_spec names2 (generate_labels names1 c).2) as [_ Hl2].
  intros l [i Hi]%list_elem_of_lookup [j Hj]%list_elem_of_lookup.
  pose proof (lookup_lt_Some _ _ _ Hi) as Hi'.
  pose proof (lookup_lt_Some _ _ _ Hj) as Hj'.
  rewrite generate_labels_length in Hi', Hj'.
  rewrite Hl1 in Hi by done. rewrite Hl2 in Hj by done. rewrite Hc1 in Hj.
  assert (c + i + 1 = c + length names1 + j + 1); [|lia].
  apply label_inj. congruence.
Qed.

(** ** The helper [_align_kwargs] as the module stands *)

(** X11. As the module stands, [_align_kwargs] returns for no input. When
    the callee is internal and the number of arguments is within its bounds,
    the helper raises [NameError] for [args_ir]; otherwise the failing check
    raises [NameError] for the exception class [CompilerPanic], which the
    module does not import. *)
Theorem align_kwargs_always_raises {ExprAst : Type} (func_t : ContractFunctionT)
    (pos_args_ir : list IRnode) (call_expr : @Call ExprAst) :
  _align_kwargs self_call_scope func_t pos_args_ir call_expr
  = Raise (NameError
             (if is_internal func_t
                 && bool_decide (min_arg_count func_t ≤ length pos_args_ir)
                 && bool_decide (length pos_args_ir ≤ max_arg_count func_t)
              then "args_ir" else "CompilerPanic")).
Proof.
  unfold _align_kwargs, _check.
  destruct (is_internal func_t); simpl; [|done].
  destruct (bool_decide (min_arg_count func_t ≤ length pos_args_ir)); simpl; [|done].
  by destruct (bool_decide (length pos_args_ir ≤ max_arg_count func_t)).
Qed.

(** ** The lowerer: checks and layout *)

Section LoweringMore.

Context {ExprAst Context : Type} {lowering : @Lowering ExprAst Context}.

(** X12. Once the arguments are evaluated, the mutability check comes
    first: a call of a state-modifying function in a constant context raises
    [StateAccessViolation] with a message that names the method, whether or
    not the callee is internal; when that check passes, a callee whose
    signature is not internal raises [StructureException]. *)
Theorem lowering_checks call_expr st sig pos_args_ir kw_args_ir st1 :
  call_arguments call_expr st = Ok ((sig, pos_args_ir, kw_args_ir), st1) →
  (is_constant (context st1) = true → is_modifying (call_type call_expr) = true →
     ir_for_self_call call_expr st
     = Raise (StateAccessViolation
                ("May not call state modifying function '" +:+ func_attr call_expr
                 +:+ "' within " +:+ pp_constancy (context st1) +:+ ".")))
  ∧ (is_constant (context st1) && is_modifying (call_type call_expr) = false →
     internal sig = false →
     ir_for_self_call call_expr st
     = Raise (StructureException "Cannot call external functions via 'self'")).
Proof.
  intros Hargs. unfold ir_for_self_call, mbind, M_bind. rewrite Hargs. simpl.
  split.
  - intros -> ->. reflexivity.
  - intros -> ->. reflexivity.
Qed.

(** X13. The tree returned for a call is a sequence typed by the callee's
    return type. Its children are the evaluate-once guard, the copy of the
    arguments, the jump to the callee's entry label and the definition of
    the return label; the label's suffix is the value of the counter after
    the run, one more than after the evaluation of the arguments. When the
    callee returns a value, the return buffer, allocated first after the
    arguments and annotated with the label, is passed in the jump before the
    pushed label and is the last child of the sequence; when it returns
    nothing, no buffer appears. *)
Theorem lowered_call_layout call_expr st o st' :
  ir_for_self_call call_expr st = Ok (o, st') →
  ∃ sig pos_args_ir kw_args_ir st1 copy,
    call_arguments call_expr st = Ok ((sig, pos_args_ir, kw_args_ir), st1)
    ∧ label_counter st' = label_counter st1 + 1
    ∧ ir_value o = IRstr "seq"
    ∧ typ (ir_meta o) = return_type sig
    ∧ let return_label := "label" +:+ pretty (label_counter st') in
      let guard := eval_once_check (_freshname (node_source_code call_expr)) in
      let landing := op "label" [sym return_label; op "var_list" []; sym "pass"] in
      match return_type sig with
      | None =>
          ir_args o
          = [guard; copy;
             op "goto" [sym (internal_function_label sig);
                        push_label_to_stack return_label];
             landing]
      | Some t =>
          let buf :=
            IR (IRint (new_internal_variable (context st1) t).1) []
              {| typ := None; location := None;
                 annotation := Some (return_label +:+ "_return_buf");
                 error_msg := None; add_gas_estimate := 0%Z; is_self_call := false |} in
          ir_args o
          = [guard; copy;
             op "goto" [sym (internal_function_label sig); buf;
                        push_label_to_stack return_label];
             landing; buf]
      end.
Proof.
  intros (sig & pos & kw & st1 & buf & st2 & copy & Hargs & _ & _ & Hbuf & Hcopy & ->)
    %ir_for_self_call_Ok.
  exists sig, pos, kw, st1, copy.
  pose proof (return_buffer_Ok _ _ _ _ _ Hbuf) as [Hc2 _]. simpl in Hc2.
  apply copy_args_label_counter in Hcopy.
  assert (label_counter st' = label_counter st1 + 1) as Hcount by congruence.
  split_and!; [done|done|done|done|]. rewrite Hcount. simpl.
  unfold return_buffer in Hbuf. destruct (return_type sig) as [t|].
  - apply M_bind_Ok in Hbuf as (p & st3 & Hnew & [= <- <-]).
    unfold new_variable in Hnew. simpl in Hnew.
    destruct (new_internal_variable (context st1) t) as [p' ctx'].
    injection Hnew as <- _. reflexivity.
  - injection Hbuf as <- _. reflexivity.
Qed.

End LoweringMore.

Lemma lowering_checks_witness :
  call_arguments (lowering := test_lowering) (test_call "f" [Lit 7]) test_state_constant
  = Ok ((test_sig "f", [int 7], [int 1; int 2]), test_state_constant)
  ∧ ir_for_self_call (lowering := test_lowering) (test_call "f" [Lit 7]) test_state_constant
    = Raise (StateAccessViolation
               "May not call state modifying function 'f' within a constant function.").
Proof.
  assert (call_arguments (lowering := test_lowering) (test_call "f" [Lit 7])
            test_state_constant
          = Ok ((test_sig "f", [int 7], [int 1; int 2]), test_state_constant)) as Hargs
    by reflexivity.
  split; [exact Hargs|].
  destruct (lowering_checks (lowering := test_lowering) _ _ _ _ _ _ Hargs) as [Hstate _].
  exact (Hstate eq_refl eq_refl).
Defined.

Lemma lowered_call_layout_witness :
  ∃ o st',
    ir_for_self_call (lowering := test_lowering) (test_call "f" [Lit 7; Lit 8]) test_state
    = Ok (o, st')
    ∧ label_counter st' = 1
    ∧ ir_args o !! 4
      = Some (IR (IRint 1024) []
                {| typ := None; location := None;
                   annotation := Some "label1_return_buf";
                   error_msg := None; add_gas_estimate := 0%Z; is_self_call := false |}).
Proof.
  eexists _, _. split; [cbv; reflexivity|].
  edestruct (@lowered_call_layout) with
      (lowering := test_lowering) (call_expr := test_call "f" [Lit 7; Lit 8])
      (st := test_state)
    as (sig & pos & kw & st1 & copy & Hargs & Hcount & _ & _ & Hlayout);
    [cbv; reflexivity|].
  assert (call_arguments (lowering := test_lowering) (test_call "f" [Lit 7; Lit 8]) test_state
          = Ok ((test_sig "f", [int 7; int 8], [int 1]), test_state)) as Hargs'
    by reflexivity.
  rewrite Hargs' in Hargs. injection Hargs as <- <- <- <-.
  split; [exact Hcount|]. simpl in Hlayout. rewrite Hlayout. reflexivity.
Defined.

Section EvalOrder.

Context {ExprAst Context : Type} {lowering : @Lowering ExprAst Context}.

Lemma eval_exprs_app_Ok es1 es2 st vs st' :
  eval_exprs (es1 ++ es2) st = Ok (vs, st')
  ↔ ∃ vs1 st1 vs2,
      eval_exprs es1 st = Ok (vs1, st1)
      ∧ eval_exprs es2 st1 = Ok (vs2, st')
      ∧ vs = vs1 ++ vs2.
Proof.
  revert st vs. induction es1 as [|e es1 IH]; intros st vs; simpl.
  - split.
    + intros H. by exists [], st, vs.
    + by intros (vs1 & st1 & vs2 & [= <- <-] & H & ->).
  - split.
    + intros (v & s1 & Hv & (vs' & s2 & Hvs & [= <- <-])%M_bind_Ok)%M_bind_Ok.
      apply IH in Hvs as (vs1 & st1 & vs2 & H1 & H2 & ->).
      exists (v :: vs1), st1, vs2. split_and!; [|done|done].
      apply M_bind_Ok. exists v, s1. split; [done|].
      apply M_bind_Ok. by exists vs1, st1.
    + intros (vs1 & st1 & vs2
              & (v & s1 & Hv & (vs1' & s2 & H1 & [= <- <-])%M_bind_Ok)%M_bind_Ok
              & H2 & ->).
      apply M_bind_Ok. exists v, s1. split; [done|].
      apply M_bind_Ok. exists (vs1' ++ vs2), st'. split; [|done].
      apply IH. by exists vs1', s2, vs2.
Qed.

Lemma eval_exprs_length es : ∀ st vs st',
  eval_exprs es st = Ok (vs, st') → length vs = length es.
Proof.
  induction es as [|e es IH]; intros st vs st'; simpl.
  - by intros [= <- _].
  - intros (v & s1 & _ & (vs' & s2 & Hvs%IH & [= <- _])%M_bind_Ok)%M_bind_Ok.
    simpl. by rewrite Hvs.
Qed.

Lemma eval_exprs_Raise es1 e es2 st vs1 st1 x :
  eval_exprs es1 st = Ok (vs1, st1) →
  Expr e st1 = Raise x →
  eval_exprs (es1 ++ e :: es2) st = Raise x.
Proof.
  revert st vs1. induction es1 as [|e1 es1 IH]; intros st vs1; simpl.
  - intros [= _ <-] He. unfold mbind, M_bind. by rewrite He.
  - intros (v & s1 & Hv & (vs' & s2 & Hvs & [= _ <-])%M_bind_Ok)%M_bind_Ok He.
    unfold mbind at 1, M_bind at 1. rewrite Hv.
    unfold mbind at 1, M_bind at 1. by rewrite (IH _ _ Hvs He).
Qed.

Lemma eval_exprs_in_order es : ∀ st vs st',
  eval_exprs es st = Ok (vs, st') →
  ∃ sts, evaluated_in_order es st vs sts ∧ last (st :: sts) = Some st'.
Proof.
  induction es as [|e es IH]; intros st vs st'; simpl.
  - intros [= <- <-]. exists []. split; [|done]. split_and!; [done|done|].
    intros i e Hi. by rewrite lookup_nil in Hi.
  - intros (v & s1 & Hv & (vs' & s2 & Hvs & [= <- <-])%M_bind_Ok)%M_bind_Ok.
    destruct (IH _ _ _ Hvs) as (sts & (Hlv & Hls & Hsteps) & Hlast).
    exists (s1 :: sts). split.
    + split_and!; [simpl; by rewrite Hlv|simpl; by rewrite Hls|].
      intros [|i] e' Hi; simpl in Hi.
      * injection Hi as <-. by exists st, v, s1.
      * destruct (Hsteps i e' Hi) as (s & v' & s' & Hs & Hs' & Hv' & Hrun).
        by exists s, v', s'.
    + by rewrite last_cons, Hlast.
Qed.

Lemma call_arguments_Raise_align call_expr st pos_args_ir st1 x :
  eval_exprs (call_args call_expr) st = Ok (pos_args_ir, st1) →
  Context_align_kwargs (context st1) (func_attr call_expr) pos_args_ir call_expr = Raise x →
  call_arguments call_expr st = Raise x.
Proof.
  intros Hpos Halign. unfold call_arguments.
  unfold mbind at 1, M_bind at 1. rewrite Hpos.
  unfold mbind at 1, M_bind at 1. simpl.
  unfold mbind at 1, M_bind at 1, lift. by rewrite Halign.
Qed.

Lemma call_arguments_Raise_default call_expr st pos_args_ir st1 sig kw_vals x :
  eval_exprs (call_args call_expr) st = Ok (pos_args_ir, st1) →
  Context_align_kwargs (context st1) (func_attr call_expr) pos_args_ir call_expr
  = Ok (sig, kw_vals) →
  eval_exprs kw_vals st1 = Raise x →
  call_arguments call_expr st = Raise x.
Proof.
  intros Hpos Halign Hkw. unfold call_arguments.
  unfold mbind at 1, M_bind at 1. rewrite Hpos.
  unfold mbind at 1, M_bind at 1. simpl.
  unfold mbind at 1, M_bind at 1, lift. rewrite Halign.
  unfold mbind at 1, M_bind at 1. by rewrite Hkw.
Qed.

Lemma ir_for_self_call_Raise call_expr st x :
  call_arguments call_expr st = Raise x → ir_for_self_call call_expr st = Raise x.
Proof.
  intros Hargs. unfold ir_for_self_call. unfold mbind at 1, M_bind at 1. by rewrite Hargs.
Qed.

(** X14. The arguments of a call are evaluated in order. In a run that gets
    past the arguments, the positional expressions are evaluated from left
    to right, each from the state the one before left; the context's helper
    is then asked for the default expressions, with the positional values
    and the context of the state they left; the default expressions are
    evaluated from left to right from that state, and the state they leave
    is the one the lowering goes on from. There is one value per expression.
    The first expression whose evaluation raises, positional or default,
    ends the lowering in that exception, and so does the helper when it
    raises. *)
Theorem arguments_in_order call_expr st :
  (∀ sig pos_args_ir kw_args_ir st',
     call_arguments call_expr st = Ok ((sig, pos_args_ir, kw_args_ir), st') →
     ∃ sts1 st1 kw_vals sts2,
       evaluated_in_order (call_args call_expr) st pos_args_ir sts1
       ∧ last (st :: sts1) = Some st1
       ∧ Context_align_kwargs (context st1) (func_attr call_expr) pos_args_ir call_expr
         = Ok (sig, kw_vals)
       ∧ evaluated_in_order kw_vals st1 kw_args_ir sts2
       ∧ last (st1 :: sts2) = Some st')
  ∧ (∀ es1 e es2 vs1 st1 x,
       call_args call_expr = es1 ++ e :: es2 →
       eval_exprs es1 st = Ok (vs1, st1) →
       Expr e st1 = Raise x →
       ir_for_self_call call_expr st = Raise x)
  ∧ (∀ pos_args_ir st1 x,
       eval_exprs (call_args call_expr) st = Ok (pos_args_ir, st1) →
       Context_align_kwargs (context st1) (func_attr call_expr) pos_args_ir call_expr
       = Raise x →
       ir_for_self_call call_expr st = Raise x)
  ∧ (∀ pos_args_ir st1 sig es1 e es2 vs1 st2 x,
       eval_exprs (call_args call_expr) st = Ok (pos_args_ir, st1) →
       Context_align_kwargs (context st1) (func_attr call_expr) pos_args_ir call_expr
       = Ok (sig, es1 ++ e :: es2) →
       eval_exprs es1 st1 = Ok (vs1, st2) →
       Expr e st2 = Raise x →
       ir_for_self_call call_expr st = Raise x).
Proof.
  split_and!.
  - intros sig pos kw st'. unfold call_arguments.
    intros (pos' & s1 & Hpos & H)%M_bind_Ok.
    apply M_bind_Ok in H as (ctx & s1' & [= <- <-] & H).
    apply M_bind_Ok in H as ([sig' kw_vals] & s2 & Hlift & H).
    apply M_bind_Ok in H as (kw' & s3 & Hkw & [= <- <- <- <-]).
    unfold lift in Hlift.
    destruct (Context_align_kwargs _ _ _ _) as [[sig'' kw_vals']|] eqn:Halign; [|done].
    injection Hlift as <- <- <-.
    apply eval_exprs_in_order in Hpos as (sts1 & Hpos & Hlast1).
    apply eval_exprs_in_order in Hkw as (sts2 & Hkw & Hlast2).
    by exists sts1, s1, kw_vals', sts2.
  - intros es1 e es2 vs1 st1 x Hargs H1 He.
    apply ir_for_self_call_Raise. unfold call_arguments.
    unfold mbind at 1, M_bind at 1.
    by rewrite Hargs, (eval_exprs_Raise _ _ _ _ _ _ _ H1 He).
  - intros pos st1 x Hpos Halign.
    by eapply ir_for_self_call_Raise, call_arguments_Raise_align.
  - intros pos st1 sig es1 e es2 vs1 st2 x Hpos Halign H1 He.
    eapply ir_for_self_call_Raise, call_arguments_Raise_default; [done|done|].
    by eapply eval_exprs_Raise.
Qed.

End EvalOrder.

(** With fuel for one level, the call in the second argument of [f] raises
    and the third argument is not reached. With the generator for small
    literals, the argument [1] of [f] is evaluated, and so is the default of
    [b]; the default of [c] raises. The call [self.f(7, 8)] gets past its
    arguments. *)
Lemma arguments_in_order_witness :
  ir_for_self_call (lowering := test_lowering_with (test_Expr 1))
    (test_call "f" [Lit 7; SelfCallE "g" [Lit 1]; Lit 8]) test_state
  = Raise RecursionError
  ∧ ir_for_self_call (lowering := test_lowering_with test_Expr_small)
      (test_call "f" [Lit 1]) test_state
    = Raise (CompilerPanic "literal")
  ∧ ∃ sts1 st1 kw_vals sts2,
      evaluated_in_order (lowering := test_lowering) [Lit 7; Lit 8] test_state
        [int 7; int 8] sts1
      ∧ last (test_state :: sts1) = Some st1
      ∧ Context_align_kwargs (Lowering := test_lowering) (context st1) "f"
          [int 7; int 8] (test_call "f" [Lit 7; Lit 8])
        = Ok (test_sig "f", kw_vals)
      ∧ evaluated_in_order (lowering := test_lowering) kw_vals st1 [int 1] sts2
      ∧ last (st1 :: sts2) = Some test_state.
Proof.
  split_and!.
  - destruct (arguments_in_order (lowering := test_lowering_with (test_Expr 1))
                (test_call "f" [Lit 7; SelfCallE "g" [Lit 1]; Lit 8]) test_state)
      as (_ & Hraise & _).
    apply (Hraise [Lit 7] (SelfCallE "g" [Lit 1]) [Lit 8] [int 7] test_state);
      reflexivity.
  - destruct (arguments_in_order (lowering := test_lowering_with test_Expr_small)
                (test_call "f" [Lit 1]) test_state)
      as (_ & _ & _ & Hraise).
    apply (Hraise [int 1] test_state (test_sig "f") [Lit 1] (Lit 2) [] [int 1] test_state);
      reflexivity.
  - destruct (arguments_in_order (lowering := test_lowering)
                (test_call "f" [Lit 7; Lit 8]) test_state) as (Hrun & _).
    exact (Hrun (test_sig "f") [int 7; int 8] [int 1] test_state eq_refl).
Defined.
